(** * zhealthcheck: the DNS reconciliation engine

    A shallow embedding of [app.js] (health probe classification, the
    per-server health store, the reconciliation planner and the action
    executor, the cycle), of [lib/cloudflare.js] (the retrying provider
    client) and of [lib/config.js] (the checks on addresses and on the
    server list), followed by the properties the specification states about
    them and by further properties of the code.

    Conventions.
    - The global object [serverHealth] (keys: IP strings) is a
      [gmap string HealthRecord].  Reading [serverHealth[ip]] for a key that
      is absent makes the JavaScript code throw a [TypeError]; functions that
      do so return [option], [None] standing for the thrown exception.
    - Timestamps ([Date.now()], milliseconds) are integers in [Z]; [null]
      timestamps are [None].
    - Everything the code obtains from the outside (probe replies, the
      provider's replies, clock readings, the ICU string collation) is an
      explicit argument. *)

From stdpp Require Import gmap strings list fin_maps.
From Stdlib Require Import ZArith NArith Lia Ascii DecimalString.

(** ** Data model *)

(** A configured server, [{ name, ip }]. *)
Record Server := mkServer { name : string; ip : string }.

(** One entry of [serverHealth]. *)
Record HealthRecord := mkHealth {
  isHealthy : bool;
  isPrimary : bool;
  lastHealthyTime : option Z;
  lastUnhealthyTime : option Z;
  isAssigned : bool
}.

(** What [checkHealth] returns, [{ isHealthy, isPrimary }]. *)
Record HealthResult := mkResult {
  probe_isHealthy : bool;
  probe_isPrimary : bool
}.

(** An A record as listed by the provider: [{ id, content, ... }]. *)
Record DNSRecord := mkRecord { record_id : string; content : string }.

(** A planned action: [{ type: 'assign', server }] or
    [{ type: 'unassign', server, recordId }]. *)
Inductive Action :=
| assign (server : Server)
| unassign (server : Server) (recordId : string).

Definition action_server (a : Action) : Server :=
  match a with assign s => s | unassign s _ => s end.

Definition is_assign (a : Action) : bool :=
  match a with assign _ => true | unassign _ _ => false end.

Definition is_unassign (a : Action) : bool :=
  match a with assign _ => false | unassign _ _ => true end.

#[global] Instance Server_eq_dec : EqDecision Server.
Proof. solve_decision. Defined.
#[global] Instance DNSRecord_eq_dec : EqDecision DNSRecord.
Proof. solve_decision. Defined.
#[global] Instance Action_eq_dec : EqDecision Action.
Proof. solve_decision. Defined.

(** ** JavaScript values, as far as the probe looks at a response body *)

#[warnings="-register-all"]
Inductive JsValue :=
| JsUndefined
| JsNull
| JsBool (b : bool)
| JsNumber (n : Z)
| JsString (s : string)
| JsArray (items : list JsValue)
| JsObject (fields : list (string * JsValue)).

(** [o[k]] on the field list of a parsed JSON object: the last binding of a
    repeated key wins, an absent key reads [undefined]. *)
Fixpoint get_field (k : string) (fields : list (string * JsValue)) : JsValue :=
  match fields with
  | [] => JsUndefined
  | (k', v) :: rest =>
      if existsb (fun kv => String.eqb (fst kv) k) rest then get_field k rest
      else if String.eqb k' k then v
      else JsUndefined
  end.

(** [v?.k] for a key [k] that no primitive or array carries. *)
Definition optional_get (v : JsValue) (k : string) : JsValue :=
  match v with
  | JsObject fields => get_field k fields
  | _ => JsUndefined
  end.

(** [v === true]. *)
Definition strict_eq_true (v : JsValue) : bool :=
  match v with JsBool true => true | _ => false end.

(** JavaScript truthiness ([!!v]). *)
Definition truthy (v : JsValue) : bool :=
  match v with
  | JsUndefined | JsNull => false
  | JsBool b => b
  | JsNumber n => negb (n =? 0)%Z
  | JsString s => negb (String.eqb s "")
  | JsArray _ | JsObject _ => true
  end.

(** ** Outcomes of an HTTP call made through axios *)

(** An HTTP response as the code reads it: [res.status] and [res.data]. *)
Record Response := mkResponse { status : Z; data : JsValue }.

(** The error object of a rejected call, as far as the code inspects it:
    [error.response?.status], [error.response?.data?.errors?.[0]?.code]
    (when it is a number) and [error.code]. *)
Record RequestError := mkError {
  response_status : option Z;
  response_error_code : option Z;
  code : option string
}.

Inductive Outcome (A : Type) :=
| Resolved (result : A)
| Rejected (error : RequestError).
Arguments Resolved {A} result.
Arguments Rejected {A} error.

(** axios' default [validateStatus]: a reply resolves iff its status is 2xx. *)
Definition validateStatus (s : Z) : bool := (200 <=? s)%Z && (s <? 300)%Z.

(** ** HealthProbe: [checkHealth] *)

Definition checkHealth (reply : Outcome Response) : HealthResult :=
  match reply with
  | Resolved res =>
      let isHealthy := (status res =? 200)%Z in
      let isPrimary := strict_eq_true (optional_get (data res) "isMongoPrimary") in
      {| probe_isHealthy := isHealthy; probe_isPrimary := isPrimary |}
  | Rejected _ => {| probe_isHealthy := false; probe_isPrimary := false |}
  end.

(** ** HealthStateStore *)

Definition GRACE_PERIOD_MS : Z := 30 * 1000.

Definition initialHealth : HealthRecord :=
  {| isHealthy := false; isPrimary := false; lastHealthyTime := None;
     lastUnhealthyTime := None; isAssigned := false |}.

(** [servers.forEach(s => { serverHealth[s.ip] = {...} })]. *)
Definition initServerHealth (servers : list Server) : gmap string HealthRecord :=
  foldl (fun sh s => <[ip s := initialHealth]> sh) ∅ servers.

Definition set_isPrimary (b : bool) (h : HealthRecord) : HealthRecord :=
  {| isHealthy := isHealthy h; isPrimary := b;
     lastHealthyTime := lastHealthyTime h;
     lastUnhealthyTime := lastUnhealthyTime h; isAssigned := isAssigned h |}.

Definition set_isAssigned (b : bool) (h : HealthRecord) : HealthRecord :=
  {| isHealthy := isHealthy h; isPrimary := isPrimary h;
     lastHealthyTime := lastHealthyTime h;
     lastUnhealthyTime := lastUnhealthyTime h; isAssigned := b |}.

Definition becomeHealthy (now : Z) (h : HealthRecord) : HealthRecord :=
  {| isHealthy := true; isPrimary := isPrimary h;
     lastHealthyTime := Some now;
     lastUnhealthyTime := lastUnhealthyTime h; isAssigned := isAssigned h |}.

Definition becomeUnhealthy (now : Z) (h : HealthRecord) : HealthRecord :=
  {| isHealthy := false; isPrimary := isPrimary h;
     lastHealthyTime := lastHealthyTime h;
     lastUnhealthyTime := Some now; isAssigned := isAssigned h |}.

Definition updateServerHealth (now : Z) (sh : gmap string HealthRecord)
    (server : Server) (healthResult : HealthResult)
  : option (gmap string HealthRecord) :=
  health ← sh !! ip server;
  let health := set_isPrimary (probe_isPrimary healthResult) health in
  if probe_isHealthy healthResult && negb (isHealthy health) then
    Some (<[ip server := becomeHealthy now health]> sh)
  else if negb (probe_isHealthy healthResult) && isHealthy health then
    Some (<[ip server := becomeUnhealthy now health]> sh)
  else
    Some (<[ip server := health]> sh).

(** ** ReconciliationPlanner: eligibility *)

Definition healthyNonPrimary (h : HealthRecord) : bool :=
  isHealthy h && negb (isPrimary h).

(** [Object.values(serverHealth).filter(h => h.isHealthy && !h.isPrimary).length] *)
Definition healthyNonPrimaryCount (sh : gmap string HealthRecord) : nat :=
  length (List.filter healthyNonPrimary (snd <$> map_to_list sh)).

Definition shouldAssignIP (sh : gmap string HealthRecord) (server : Server)
  : option bool :=
  health ← sh !! ip server;
  if negb (isHealthy health) || isAssigned health then Some false
  else if isPrimary health then
    if (0 <? healthyNonPrimaryCount sh)%nat then Some false else Some true
  else Some true.

(** A timestamp used as a number: [null] coerces to [0]. *)
Definition toNumber (t : option Z) : Z := default 0%Z t.

Definition shouldUnassignIP (now : Z) (sh : gmap string HealthRecord)
    (server : Server) (assignedCount : nat) : option bool :=
  health ← sh !! ip server;
  if negb (isAssigned health) || isHealthy health then Some false
  else if isPrimary health && isHealthy health then
    if (0 <? healthyNonPrimaryCount sh)%nat then Some true else Some false
  else if (assignedCount <=? 1)%nat then Some false
  else
    let timeSinceUnhealthy := (now - toNumber (lastUnhealthyTime health))%Z in
    if (timeSinceUnhealthy <? GRACE_PERIOD_MS)%Z then Some false
    else Some true.

(** ** [Array.prototype.sort]

    The built-in sort is stable; for a comparator [cmp] returning a negative
    number, zero or a positive number it is modelled by a stable insertion
    sort: an element is moved behind the elements it compares greater than,
    and never past an element it compares equal to.  For a consistent
    comparator, such as [compareActions] below, every stable sort gives this
    result. *)

Fixpoint sort_insert {A} (cmp : A → A → Z) (x : A) (l : list A) : list A :=
  match l with
  | [] => [x]
  | y :: l' =>
      if (0 <? cmp x y)%Z then y :: sort_insert cmp x l' else x :: y :: l'
  end.

Definition js_sort {A} (cmp : A → A → Z) (l : list A) : list A :=
  foldr (sort_insert cmp) [] l.

(** The comparator of [actions.sort(...)] in [manageDNSRecords]. *)
Definition compareActions (a b : Action) : Z :=
  match a, b with
  | assign _, unassign _ _ => (-1)%Z
  | unassign _ _, assign _ => 1%Z
  | _, _ => 0%Z
  end.

(** ** ReconciliationPlanner and executor: [manageDNSRecords] *)

(** [new Set(currentRecords.map(r => r.content))] *)
Definition currentIPs (currentRecords : list DNSRecord) : gset string :=
  list_to_set (content <$> currentRecords).

(** [currentRecords.find(r => r.content === ip)] *)
Definition findRecord (currentRecords : list DNSRecord) (ip0 : string)
  : option DNSRecord :=
  List.find (fun r => String.eqb (content r) ip0) currentRecords.

(** [actions.find(a => a.type === 'unassign' && a.server.ip === ip)],
    as a truth value. *)
Definition hasUnassignFor (actions : list Action) (ip0 : string) : bool :=
  existsb (fun a => is_unassign a && String.eqb (ip (action_server a)) ip0)
          actions.

(** [servers.forEach(server => { serverHealth[server.ip].isAssigned =
    currentIPs.has(server.ip) })] *)
Fixpoint resync (ips : gset string) (servers : list Server)
    (sh : gmap string HealthRecord) : option (gmap string HealthRecord) :=
  match servers with
  | [] => Some sh
  | server :: rest =>
      health ← sh !! ip server;
      resync ips rest
        (<[ip server := set_isAssigned (bool_decide (ip server ∈ ips)) health]> sh)
  end.

(** The body of the planning loop for one server.  [now] is the reading of
    [Date.now()] taken while this server is evaluated. *)
Definition planStep (now : Z) (sh : gmap string HealthRecord)
    (currentRecords : list DNSRecord) (assignedCount : nat)
    (actions : list Action) (server : Server) : option (list Action) :=
  health ← sh !! ip server;
  doAssign ← shouldAssignIP sh server;
  actions ←
    (if doAssign : bool then Some (actions ++ [assign server])
     else
       doUnassign ← shouldUnassignIP now sh server assignedCount;
       if doUnassign : bool then
         match findRecord currentRecords (ip server) with
         | Some record => Some (actions ++ [unassign server (record_id record)])
         | None => Some actions
         end
       else Some actions);
  if isAssigned health && isPrimary health && isHealthy health then
    if (0 <? healthyNonPrimaryCount sh)%nat then
      match findRecord currentRecords (ip server) with
      | Some record =>
          if negb (hasUnassignFor actions (ip server)) then
            Some (actions ++ [unassign server (record_id record)])
          else Some actions
      | None => Some actions
      end
    else Some actions
  else Some actions.

(** The loop [for (const server of sortedServers)]; [clock i] is the clock
    reading during the iteration for the [i]-th server. *)
Fixpoint planLoop (clock : nat → Z) (i : nat) (sh : gmap string HealthRecord)
    (currentRecords : list DNSRecord) (assignedCount : nat)
    (actions : list Action) (sortedServers : list Server)
  : option (list Action) :=
  match sortedServers with
  | [] => Some actions
  | server :: rest =>
      actions ← planStep (clock i) sh currentRecords assignedCount actions server;
      planLoop clock (S i) sh currentRecords assignedCount actions rest
  end.

(** The provider's record set and the effect of a call that succeeds.
    [newId] is the provider's allocator of record ids. *)
Definition createRecord (newId : list DNSRecord → string)
    (store : list DNSRecord) (ip0 : string) : list DNSRecord :=
  store ++ [{| record_id := newId store; content := ip0 |}].

Definition deleteRecord (store : list DNSRecord) (recordId : string)
  : list DNSRecord :=
  List.filter (fun r => negb (String.eqb (record_id r) recordId)) store.

(** One iteration of the execution loop.  [ok] tells whether the awaited
    client call returns (true) or throws (false, caught and logged: neither
    the store nor the health map changes).  The assignment to
    [serverHealth[ip].isAssigned] happens after the call returned; on a
    missing key it throws inside the same [try] and is caught as well, which
    is what [alter] does. *)
Definition executeAction (newId : list DNSRecord → string) (ok : bool)
    (st : gmap string HealthRecord * list DNSRecord) (action : Action)
  : gmap string HealthRecord * list DNSRecord :=
  if ok then
    match action with
    | assign server =>
        (alter (set_isAssigned true) (ip server) st.1,
         createRecord newId st.2 (ip server))
    | unassign server recordId =>
        (alter (set_isAssigned false) (ip server) st.1,
         deleteRecord st.2 recordId)
    end
  else st.

(** [for (const action of sortedActions)]; [oks j] is the outcome of the
    [j]-th call of the batch. *)
Fixpoint executeActions (newId : list DNSRecord → string) (oks : nat → bool)
    (j : nat) (st : gmap string HealthRecord * list DNSRecord)
    (sortedActions : list Action)
  : gmap string HealthRecord * list DNSRecord :=
  match sortedActions with
  | [] => st
  | action :: rest =>
      executeActions newId oks (S j) (executeAction newId (oks j) st action) rest
  end.

Section Reconciliation.

(** [a.localeCompare(b)], left to the platform's collation. *)
Variable localeCompare : string → string → Z.
(** The provider's record-id allocator. *)
Variable newId : list DNSRecord → string.

Definition compareServers (a b : Server) : Z :=
  localeCompare (name a) (name b).

(** The planning part of [manageDNSRecords], from the fetched records to
    the sorted action batch, with the resynchronised health map. *)
Definition planActions (clock : nat → Z) (servers : list Server)
    (sh : gmap string HealthRecord) (currentRecords : list DNSRecord)
  : option (gmap string HealthRecord * list Action) :=
  let ips := currentIPs currentRecords in
  sh ← resync ips servers sh;
  let assignedCount := size ips in
  let sortedServers := js_sort compareServers servers in
  actions ← planLoop clock 0 sh currentRecords assignedCount [] sortedServers;
  Some (sh, js_sort compareActions actions).

(** One run of [manageDNSRecords].  [store] is the provider's record set;
    [fetched] tells whether [getAllDNSRecords()] returned it or threw (the
    run is skipped, nothing changes).  The result is the health map, the
    provider's record set after the run and the batch issued, in order. *)
Definition manageDNSRecords (clock : nat → Z) (oks : nat → bool)
    (servers : list Server) (sh : gmap string HealthRecord)
    (store : list DNSRecord) (fetched : bool)
  : option (gmap string HealthRecord * list DNSRecord * list Action) :=
  if fetched then
    '(sh, sortedActions) ← planActions clock servers sh store;
    let st := executeActions newId oks 0 (sh, store) sortedActions in
    Some (st.1, st.2, sortedActions)
  else Some (sh, store, []).

End Reconciliation.

(** ** ExternalRecordClient: [CloudflareAPI.makeRequest] *)

Module Cloudflare.

(** The mutable fields of the client that [makeRequest] uses. *)
Record CloudflareAPI := mkClient {
  lastRequest : Z;
  minInterval : Z;
  retryDelays : list Z
}.

(** The constructor. *)
Definition newCloudflareAPI : CloudflareAPI :=
  {| lastRequest := 0; minInterval := 1000;
     retryDelays := [1000; 2000; 4000; 8000]%Z |}.

(** What an observer of the client sees: the waits of the rate limiter, the
    invocations of [requestFn] and the waits of the retry loop. *)
Inductive Event :=
| Throttle (ms : Z)
| Request (attempt : nat)
| Backoff (ms : Z).

(** How a call of [makeRequest] ends.  [ReturnUndefined] is the end of the
    [for] loop without [return] or [throw]. *)
Inductive Completion (A : Type) :=
| Return (result : A)
| ReturnUndefined
| Throw (error : RequestError).
Arguments Return {A} result.
Arguments ReturnUndefined {A}.
Arguments Throw {A} error.

Definition isRateLimit (error : RequestError) : bool :=
  bool_decide (response_status error = Some 429%Z)
  || bool_decide (response_error_code error = Some 10013%Z).

Definition isServerError (error : RequestError) : bool :=
  match response_status error with
  | Some s => (500 <=? s)%Z && (s <? 600)%Z
  | None => false
  end.

Definition isRetryable (error : RequestError) : bool :=
  isRateLimit error
  || bool_decide (code error = Some "ECONNRESET")
  || bool_decide (code error = Some "ETIMEDOUT")
  || isServerError error.

Section MakeRequest.
Context {A : Type}.
(** [requestFn i] is what the [i]-th invocation of the request function
    does: the time it takes and how it settles. *)
Variable requestFn : nat → Z * Outcome A.

(** The [for] loop of [makeRequest] from iteration [attempt] on; [fuel]
    is the number of iterations left, [maxRetries + 1 - attempt].  [now]
    is the clock; [setTimeout] waits advance it by their delay. *)
Fixpoint attemptLoop (fuel : nat) (maxRetries : nat) (attempt : nat)
    (this : CloudflareAPI) (now : Z) (trace : list Event)
  : CloudflareAPI * Z * list Event * Completion A :=
  match fuel with
  | O => (this, now, trace, ReturnUndefined)
  | S fuel =>
      let timeSinceLastRequest := (now - lastRequest this)%Z in
      let '(now, trace) :=
        if (timeSinceLastRequest <? minInterval this)%Z then
          ((now + (minInterval this - timeSinceLastRequest))%Z,
           trace ++ [Throttle (minInterval this - timeSinceLastRequest)])
        else (now, trace) in
      let this := {| lastRequest := now; minInterval := minInterval this;
                     retryDelays := retryDelays this |} in
      let '(duration, outcome) := requestFn attempt in
      let now := (now + duration)%Z in
      let trace := trace ++ [Request attempt] in
      match outcome with
      | Resolved result => (this, now, trace, Return result)
      | Rejected error =>
          let isLastAttempt := (attempt =? maxRetries)%nat in
          if isLastAttempt || negb (isRetryable error) then
            (this, now, trace, Throw error)
          else
            let delay := default 0%Z (retryDelays this !! attempt) in
            attemptLoop fuel maxRetries (S attempt) this
              (now + delay)%Z (trace ++ [Backoff delay])
      end
  end.

Definition makeRequest (this : CloudflareAPI) (now : Z)
  : CloudflareAPI * Z * list Event * Completion A :=
  let maxRetries := length (retryDelays this) in
  attemptLoop (S maxRetries) maxRetries 0 this now [].

End MakeRequest.

(** The wait of the rate limiter at the start of an iteration, if any. *)
Definition throttle (this : CloudflareAPI) (now : Z) : list Event :=
  if (now - lastRequest this <? minInterval this)%Z
  then [Throttle (minInterval this - (now - lastRequest this))]
  else [].

(** How the [i]-th invocation of a request function settles, as a
    completion of the whole call. *)
Definition settle {A} (outcome : Outcome A) : Completion A :=
  match outcome with
  | Resolved result => Return result
  | Rejected error => Throw error
  end.

(** The outcome is a failure that the retry loop retries. *)
Definition retried {A} (outcome : Outcome A) : Prop :=
  ∃ error, outcome = Rejected error ∧ isRetryable error = true.

(** The outcome ends the retry loop whatever the attempt number. *)
Definition final {A} (outcome : Outcome A) : Prop :=
  (∃ result, outcome = Resolved result)
  ∨ ∃ error, outcome = Rejected error ∧ isRetryable error = false.

Definition requests (trace : list Event) : list nat :=
  omap (fun e => match e with Request i => Some i | _ => None end) trace.

Definition backoffs (trace : list Event) : list Z :=
  omap (fun e => match e with Backoff d => Some d | _ => None end) trace.

(** The events of a call that makes [k] retries with nothing but the
    back-off waits between the attempts. *)
Fixpoint retryTrace (delays : list Z) (attempt : nat) (k : nat) : list Event :=
  match k, delays with
  | S k, d :: delays => Request attempt :: Backoff d :: retryTrace delays (S attempt) k
  | _, _ => [Request attempt]
  end.

End Cloudflare.

(** The state-update pass of [doCheckups]:
    [for (const result of results) updateServerHealth(result, result.healthResult)];
    [clock i] is the reading of [Date.now()] in the [i]-th call. *)
Fixpoint updateAll (clock : nat → Z) (i : nat) (sh : gmap string HealthRecord)
    (results : list (Server * HealthResult))
  : option (gmap string HealthRecord) :=
  match results with
  | [] => Some sh
  | (server, healthResult) :: rest =>
      sh ← updateServerHealth (clock i) sh server healthResult;
      updateAll clock (S i) sh rest
  end.

(** A server that no probe has ever found healthy still has its initial
    [isHealthy = false] and [lastUnhealthyTime = null]. *)
Definition never_healthy (h : HealthRecord) : Prop :=
  isHealthy h = false ∧ lastUnhealthyTime h = None.

(** ** The decision table of the planning loop

    What one iteration of the planning loop appends to [actions] for a server
    whose health record is [health]: the three decisions of the loop body
    ([shouldAssignIP], [shouldUnassignIP], the primary special case) laid out
    by the health flags.  [planStep_eq] below proves that the loop body
    computes exactly this. *)
Definition stepActions (now : Z) (sh : gmap string HealthRecord)
    (currentRecords : list DNSRecord) (assignedCount : nat)
    (actions : list Action) (server : Server) (health : HealthRecord)
  : list Action :=
  let removal :=
    match findRecord currentRecords (ip server) with
    | Some record => [unassign server (record_id record)]
    | None => []
    end in
  if isHealthy health then
    if isAssigned health then
      if isPrimary health && (0 <? healthyNonPrimaryCount sh)%nat then
        if hasUnassignFor actions (ip server) then [] else removal
      else []
    else
      if isPrimary health && (0 <? healthyNonPrimaryCount sh)%nat then []
      else [assign server]
  else
    if isAssigned health && negb (assignedCount <=? 1)%nat
       && negb (now - toNumber (lastUnhealthyTime health) <? GRACE_PERIOD_MS)%Z
    then removal
    else [].

(** Eligible for a new assignment. *)
Definition assignable (sh : gmap string HealthRecord) (h : HealthRecord) : Prop :=
  isHealthy h = true ∧ isAssigned h = false ∧
  (isPrimary h = false ∨ (0 <? healthyNonPrimaryCount sh)%nat = false).

(** Assigned, healthy and primary while a healthy non-primary server exists. *)
Definition demotable (sh : gmap string HealthRecord) (h : HealthRecord) : Prop :=
  isAssigned h = true ∧ isHealthy h = true ∧ isPrimary h = true ∧
  (0 <? healthyNonPrimaryCount sh)%nat = true.

(** Assigned and unhealthy for at least the grace period at one of the clock
    readings, with at least two published addresses. *)
Definition expired (clock : nat → Z) (assignedCount : nat) (h : HealthRecord)
  : Prop :=
  isAssigned h = true ∧ isHealthy h = false ∧ (2 ≤ assignedCount)%nat ∧
  ∃ i, (GRACE_PERIOD_MS ≤ clock i - toNumber (lastUnhealthyTime h))%Z.

(** The reason an action is in the plan. *)
Definition justified (clock : nat → Z) (sh : gmap string HealthRecord)
    (currentRecords : list DNSRecord) (assignedCount : nat) (a : Action) : Prop :=
  match a with
  | assign s => ∃ h, sh !! ip s = Some h ∧ assignable sh h
  | unassign s recordId =>
      ∃ h r, sh !! ip s = Some h
             ∧ findRecord currentRecords (ip s) = Some r
             ∧ recordId = record_id r
             ∧ (expired clock assignedCount h ∨ demotable sh h)
  end.

(** ** Concrete instances used by the examples below *)

(** A collation: code-point order. *)
Definition codepointCompare (a b : string) : Z :=
  match String.compare a b with Lt => (-1)%Z | Eq => 0%Z | Gt => 1%Z end.

(** An id allocator: an id longer than every id in the store. *)
Definition longId (store : list DNSRecord) : string :=
  foldr (fun r acc => String.append (record_id r) acc) "n" store.

Definition alpha : Server := {| name := "alpha"; ip := "10.0.0.1" |}.
Definition bravo : Server := {| name := "bravo"; ip := "10.0.0.2" |}.
Definition charlie : Server := {| name := "charlie"; ip := "10.0.0.3" |}.

Definition healthRecord (healthy primary : bool) (unhealthySince : option Z)
  : HealthRecord :=
  {| isHealthy := healthy; isPrimary := primary; lastHealthyTime := None;
     lastUnhealthyTime := unhealthySince; isAssigned := false |}.

(** A clock reading and the provider's records used in the examples. *)
Definition t0 : Z := 1700000000000.

Definition recordA : DNSRecord :=
  {| record_id := "a0a0a0a0a0a0a0a0a0a0a0a0a0a0a0a0"; content := "10.0.0.1" |}.
Definition recordC : DNSRecord :=
  {| record_id := "c0c0c0c0c0c0c0c0c0c0c0c0c0c0c0c0"; content := "10.0.0.3" |}.

(** An outage: alpha unhealthy for 5s, charlie for 45s, both published. *)
Definition outage_health : gmap string HealthRecord :=
  <["10.0.0.1" := healthRecord false false (Some (t0 + 40000)%Z)]>
    (<["10.0.0.3" := healthRecord false false (Some t0)]> ∅).

(** The specification's scenario 1: alpha healthy and published, bravo
    healthy and not published, charlie unhealthy for 45s and published. *)
Definition scenario1_health : gmap string HealthRecord :=
  <["10.0.0.1" := healthRecord true false None]>
    (<["10.0.0.2" := healthRecord true false None]>
       (<["10.0.0.3" := healthRecord false false (Some t0)]> ∅)).

(** Scenario 2: alpha, primary, is the only healthy server; nothing is
    published. *)
Definition scenario2_health : gmap string HealthRecord :=
  <["10.0.0.1" := healthRecord true true None]>
    (<["10.0.0.3" := healthRecord false false (Some t0)]> ∅).

(** Scenario 3: alpha healthy, primary and published; bravo healthy and not
    primary. *)
Definition scenario3_health : gmap string HealthRecord :=
  <["10.0.0.1" := healthRecord true true None]>
    (<["10.0.0.2" := healthRecord true false None]> ∅).

(** A recovery: bravo healthy and not published, charlie unhealthy for 45s
    and the only published server. *)
Definition recovery_health : gmap string HealthRecord :=
  <["10.0.0.2" := healthRecord true false None]>
    (<["10.0.0.3" := healthRecord false false (Some t0)]> ∅).

(** A request function that is rate limited four times, then succeeds. *)
Definition rateLimited : RequestError :=
  {| response_status := Some 429%Z; response_error_code := None; code := None |}.

Definition notFound : RequestError :=
  {| response_status := Some 404%Z; response_error_code := None; code := None |}.

Definition flakyRequest (i : nat) : Z * Outcome nat :=
  (120%Z, if (i <? 4)%nat then Rejected rateLimited else Resolved i).

(** The probe results of a first cycle: alpha answers 200, the probe of
    charlie fails. *)
Definition firstCycle_results : list (Server * HealthResult) :=
  [(alpha, checkHealth (Resolved {| status := 200; data := JsNull |}));
   (charlie, checkHealth (Rejected {| response_status := None;
                                      response_error_code := None;
                                      code := Some "ECONNREFUSED" |}))].

(** A longer outage: alpha and charlie both unhealthy for 45s, both
    published. *)
Definition blackout_health : gmap string HealthRecord :=
  <["10.0.0.1" := healthRecord false false (Some t0)]>
    (<["10.0.0.3" := healthRecord false false (Some t0)]> ∅).

(** ** The health fields that reconciliation never writes *)

Definition vitals (h : HealthRecord) : bool * bool * option Z :=
  (isHealthy h, isPrimary h, lastUnhealthyTime h).

Definition same_vitals (m1 m2 : gmap string HealthRecord) : Prop :=
  ∀ k, vitals <$> m1 !! k = vitals <$> m2 !! k.

(** Every configured server has its entry in the health map, and the map has
    no other entry: the state [initServerHealth] sets up. *)
Definition wf_state (servers : list Server) (sh : gmap string HealthRecord)
  : Prop :=
  dom sh = list_to_set (ip <$> servers).

(** ** Notions used to state further properties of a run *)

(** Two health maps agree on everything but the [isAssigned] flags. *)
Definition same_but_assigned (m1 m2 : gmap string HealthRecord) : Prop :=
  ∀ k, set_isAssigned false <$> m1 !! k = set_isAssigned false <$> m2 !! k.

(** The published set is what the planner aims at: an address is published
    iff its server is healthy and either not primary or without a healthy
    non-primary alternative. *)
Definition converged (servers : list Server) (sh : gmap string HealthRecord)
    (currentRecords : list DNSRecord) : Prop :=
  ∀ s h, s ∈ servers → sh !! ip s = Some h →
    (ip s ∈ currentIPs currentRecords ↔
     isHealthy h = true
     ∧ (isPrimary h = false ∨ (0 <? healthyNonPrimaryCount sh)%nat = false)).


(** The transition timestamps of a record tell its history: a healthy
    record has a [lastHealthyTime], not earlier than its
    [lastUnhealthyTime]; an unhealthy record with a [lastUnhealthyTime] was
    healthy before, not later than that time. *)
Definition coherent (h : HealthRecord) : Prop :=
  if isHealthy h then
    ∃ t, lastHealthyTime h = Some t
         ∧ ∀ u, lastUnhealthyTime h = Some u → (u ≤ t)%Z
  else
    ∀ u, lastUnhealthyTime h = Some u →
         ∃ t, lastHealthyTime h = Some t ∧ (t ≤ u)%Z.

(** No timestamp of the record is later than [T]. *)
Definition stamped_before (T : Z) (h : HealthRecord) : Prop :=
  (∀ t, lastHealthyTime h = Some t → (t ≤ T)%Z)
  ∧ (∀ u, lastUnhealthyTime h = Some u → (u ≤ T)%Z).

(** ** Configuration: [isValidIP] and the checks on the server list *)

(** [s.split('.')] *)
Fixpoint split_dot (s : string) : list string :=
  match s with
  | EmptyString => [EmptyString]
  | String c s' =>
      if Ascii.eqb c "." then EmptyString :: split_dot s'
      else match split_dot s' with
           | part :: parts => String c part :: parts
           | [] => [String c EmptyString]
           end
  end.

(** A character matched by the digit class of the pattern, [0] to [9]. *)
Definition isDigit (c : ascii) : bool :=
  (48 <=? N_of_ascii c)%N && (N_of_ascii c <=? 57)%N.

Fixpoint allDigits (s : string) : bool :=
  match s with
  | EmptyString => true
  | String c s' => isDigit c && allDigits s'
  end.

(** The pattern test of [isValidIP] on a part: the whole part is a single
    [0], or a digit [1-9] followed by any number of digits. *)
Definition isDecimalLiteral (part : string) : bool :=
  match part with
  | EmptyString => false
  | String c rest =>
      if Ascii.eqb c "0" then String.eqb rest EmptyString
      else (49 <=? N_of_ascii c)%N && (N_of_ascii c <=? 57)%N && allDigits rest
  end.

(** [parseInt(part, 10)] on a string of digits (the only strings it is
    called on): the number the digits denote.  JavaScript rounds a long
    literal to a double; no rounding takes a number across 255. *)
Fixpoint parseDigits (acc : N) (s : string) : N :=
  match s with
  | EmptyString => acc
  | String c s' => parseDigits (acc * 10 + (N_of_ascii c - 48))%N s'
  end.

Definition parseInt10 (part : string) : N := parseDigits 0 part.

(** The callback of [parts.every(...)]. *)
Definition validPart (part : string) : bool :=
  if negb (isDecimalLiteral part) then false
  else
    let num := parseInt10 part in
    (0 <=? num)%N && (num <=? 255)%N.

Definition isValidIP (ip0 : string) : bool :=
  let parts := split_dot ip0 in
  if negb (length parts =? 4) then false
  else forallb validPart parts.

(** The callback of [serversData.map(...)] in [validateAndParseConfig]:
    [true] when it returns the entry, [false] when it throws.  Reading a
    property of [null] or [undefined] throws; a primitive or an array has
    neither [name] nor [ip]; an [ip] that is not a string has no [split]
    method, so [isValidIP] throws on it. *)
Definition validServerEntry (s : JsValue) : bool :=
  match s with
  | JsObject fields =>
      if negb (truthy (get_field "name" fields))
         || negb (truthy (get_field "ip" fields))
      then false
      else
        match get_field "ip" fields with
        | JsString ip0 => isValidIP ip0
        | _ => false
        end
  | _ => false
  end.

(** The checks of [validateAndParseConfig] on the parsed [servers] value:
    [Some servers] when they pass, [None] when an error is thrown (every
    failure is rethrown as one ['Invalid servers configuration'] error). *)
Definition validateServers (serversData : JsValue) : option (list JsValue) :=
  match serversData with
  | JsArray items =>
      if (length items =? 0) then None
      else if forallb validServerEntry items then Some items
      else None
  | _ => None
  end.

(** The decimal numeral of a number, and the dotted quad of four. *)
Definition decimal (n : N) : string := NilZero.string_of_uint (N.to_uint n).

Definition dottedQuad (a b c d : N) : string :=
  String.append (decimal a) (String "."
    (String.append (decimal b) (String "."
       (String.append (decimal c) (String "." (decimal d)))))).

Fixpoint noDot (s : string) : bool :=
  match s with
  | EmptyString => true
  | String c s' => negb (Ascii.eqb c ".") && noDot s'
  end.

(** [parts.join('.')] *)
Fixpoint join_dot (parts : list string) : string :=
  match parts with
  | [] => EmptyString
  | [part] => part
  | part :: rest => String.append part (String "." (join_dot rest))
  end.

Definition digitChars : list ascii :=
  ["0"; "1"; "2"; "3"; "4"; "5"; "6"; "7"; "8"; "9"]%char.

(** The strings of at most two digits, and the strings of one to three
    digits. *)
Definition shortTails : list string :=
  EmptyString :: map (λ c, String c EmptyString) digitChars
  ++ flat_map (λ c, map (λ c', String c (String c' EmptyString)) digitChars)
       digitChars.

Definition octetCandidates : list string :=
  flat_map (λ c, map (String c) shortTails) digitChars.

(** A steady state: alpha and bravo healthy, not primary, both published. *)
Definition recordB : DNSRecord :=
  {| record_id := "b0b0b0b0b0b0b0b0b0b0b0b0b0b0b0b0"; content := "10.0.0.2" |}.

Definition steady_health : gmap string HealthRecord :=
  <["10.0.0.1" := healthRecord true false None]>
    (<["10.0.0.2" := healthRecord true false None]> ∅).

(** Scenario 1 with [isAssigned] flags left over from an earlier run. *)
Definition scenario1_stale : gmap string HealthRecord :=
  set_isAssigned true <$> scenario1_health.

(** A clock that ticks once per reading. *)
Definition tickingClock (i : nat) : Z := (t0 + Z.of_nat i)%Z.

(** A parsed server list with one entry. *)
Definition oneServerConfig : list JsValue :=
  [JsObject [("name", JsString "alpha"); ("ip", JsString "10.0.0.1")]].

(** ** The cycle: [doCheckups] *)

(** [Promise.all(sortedServers.map(async (s) => ({ ...s, healthResult:
    await checkHealth(s.name, s.ip) })))]; [replies i] is the reply to the
    probe of the [i]-th server in name order. *)
Definition probeResults (replies : nat → Outcome Response)
    (sortedServers : list Server) : list (Server * HealthResult) :=
  imap (λ i s, (s, checkHealth (replies i))) sortedServers.

(** One cycle of [doCheckups]: the probes, the update pass and the run of
    [manageDNSRecords]; the status lines only print.  [None] stands for an
    exception, which [doCheckups] catches and logs before it re-arms the
    timer. *)
Definition doCheckups (localeCompare : string → string → Z)
    (newId : list DNSRecord → string) (replies : nat → Outcome Response)
    (updateClock planClock : nat → Z) (oks : nat → bool)
    (servers : list Server) (sh : gmap string HealthRecord)
    (store : list DNSRecord) (fetched : bool)
  : option (gmap string HealthRecord * list DNSRecord * list Action) :=
  let sortedServers := js_sort (compareServers localeCompare) servers in
  let results := probeResults replies sortedServers in
  sh ← updateAll updateClock 0 sh results;
  manageDNSRecords localeCompare newId planClock oks servers sh store fetched.

(** Every probe answers 200 with an empty body. *)
Definition allUp (i : nat) : Outcome Response :=
  Resolved {| status := 200; data := JsNull |}.

(** One configured server, healthy; nothing is published yet. *)
Definition lonely_health : gmap string HealthRecord :=
  <["10.0.0.1" := healthRecord true false None]> ∅.

(** alpha healthy, charlie unhealthy since [t0]; both published. *)
Definition waning_health : gmap string HealthRecord :=
  <["10.0.0.1" := healthRecord true false None]>
    (<["10.0.0.3" := healthRecord false false (Some t0)]> ∅).

(** ** When the grace period of a record is over

    [shouldUnassignIP] computes [Date.now() - health.lastUnhealthyTime], in
    which a [null] time counts as 0.  Spelt out by the two cases of the
    field: a record that turned unhealthy at [T] is past its grace period
    from [T + GRACE_PERIOD_MS] on; a record that has never turned unhealthy
    (unhealthy since the process started) is past it at every reading that
    is at least [GRACE_PERIOD_MS], which every epoch time is. *)
Definition graceOver (now : Z) (h : HealthRecord) : Prop :=
  (∃ T, lastUnhealthyTime h = Some T ∧ (T + GRACE_PERIOD_MS ≤ now)%Z)
  ∨ (lastUnhealthyTime h = None ∧ (GRACE_PERIOD_MS ≤ now)%Z).

(** A published, unhealthy server could be removed in a run: at least two
    addresses are published when the run starts and the server's grace
    period is over at every clock reading of the run. *)
Definition removable (clock : nat → Z) (store : list DNSRecord)
    (h : HealthRecord) : Prop :=
  (2 ≤ size (currentIPs store))%nat ∧ ∀ i, graceOver (clock i) h.

(** * Properties *)

(** ** The probe *)

(** C9 (as stated, refuted): a reply that resolves with a 2xx status other
    than 200 and a body whose [isMongoPrimary] is [true] is classified
    unhealthy but primary, not [isPrimary = false]. *)
Lemma checkHealth_non200_keeps_primary :
  validateStatus 203 = true ∧ (203 ≠ 200)%Z ∧
  checkHealth
    (Resolved {| status := 203;
                 data := JsObject [("isMongoPrimary", JsBool true)] |})
  = {| probe_isHealthy := false; probe_isPrimary := true |}.
Proof. repeat split; done. Qed.

(** A role indicator that is truthy without being the boolean [true] does not
    make the server primary. *)
Example checkHealth_truthy_number :
  truthy (JsNumber 1) = true ∧
  checkHealth
    (Resolved {| status := 200;
                 data := JsObject [("isMongoPrimary", JsNumber 1)] |})
  = {| probe_isHealthy := true; probe_isPrimary := false |}.
Proof. split; reflexivity. Qed.

Lemma strict_eq_true_spec v : strict_eq_true v = true ↔ v = JsBool true.
Proof. destruct v as [| |[]| | | |]; simpl; split; congruence. Qed.

(** C9 (amended): a resolved reply is healthy iff its status is 200, and
    primary iff the body's [isMongoPrimary] is the boolean [true], whatever
    the status; a resolved reply with another status is unhealthy; a rejected
    call (timeout, transport error, status refused by axios) is unhealthy and
    not primary. *)
Theorem checkHealth_classification :
  (∀ res,
      (probe_isHealthy (checkHealth (Resolved res)) = true ↔ status res = 200%Z)
      ∧ (probe_isPrimary (checkHealth (Resolved res)) = true ↔
         optional_get (data res) "isMongoPrimary" = JsBool true)
      ∧ (probe_isPrimary (checkHealth (Resolved res)) = true →
         truthy (optional_get (data res) "isMongoPrimary") = true))
  ∧ (∀ error,
        checkHealth (Rejected error)
        = {| probe_isHealthy := false; probe_isPrimary := false |}).
Proof.
  split; [|done]. intros res. cbn [checkHealth probe_isHealthy probe_isPrimary].
  split_and!.
  - apply Z.eqb_eq.
  - apply strict_eq_true_spec.
  - intros ->%strict_eq_true_spec. done.
Qed.

(** ** Grace period *)

(** C3: for an assigned, unhealthy, non-primary server that became unhealthy
    at [T], with at least two published addresses, [shouldUnassignIP] answers
    [false] at every time before [T + 30s] and [true] from [T + 30s] on. *)
Theorem shouldUnassignIP_grace now sh server h T assignedCount :
  sh !! ip server = Some h →
  isAssigned h = true → isHealthy h = false → isPrimary h = false →
  lastUnhealthyTime h = Some T →
  (1 ≤ assignedCount - 1)%nat →
  ((now < T + GRACE_PERIOD_MS)%Z →
   shouldUnassignIP now sh server assignedCount = Some false)
  ∧ ((T + GRACE_PERIOD_MS ≤ now)%Z →
     shouldUnassignIP now sh server assignedCount = Some true).
Proof.
  intros Hh Ha Hu Hp HT Hn. unfold shouldUnassignIP.
  rewrite Hh; simpl. rewrite Ha, Hu, Hp, HT; simpl.
  destruct (Nat.leb_spec assignedCount 1) as [|_]; [lia|].
  split; intros Ht.
  - destruct (Z.ltb_spec (now - T) GRACE_PERIOD_MS); [done | lia].
  - destruct (Z.ltb_spec (now - T) GRACE_PERIOD_MS); [lia | done].
Qed.

Lemma shouldUnassignIP_grace_witness :
  shouldUnassignIP 30999
    {["10.0.0.3" := mkHealth false false None (Some 1000%Z) true]} charlie 2
  = Some false
  ∧ shouldUnassignIP 31000
      {["10.0.0.3" := mkHealth false false None (Some 1000%Z) true]} charlie 2
    = Some true.
Proof.
  pose proof (shouldUnassignIP_grace 30999
    {["10.0.0.3" := mkHealth false false None (Some 1000%Z) true]} charlie
    (mkHealth false false None (Some 1000%Z) true) 1000 2
    eq_refl eq_refl eq_refl eq_refl eq_refl ltac:(simpl; lia)) as [H1 _].
  pose proof (shouldUnassignIP_grace 31000
    {["10.0.0.3" := mkHealth false false None (Some 1000%Z) true]} charlie
    (mkHealth false false None (Some 1000%Z) true) 1000 2
    eq_refl eq_refl eq_refl eq_refl eq_refl ltac:(simpl; lia)) as [_ H2].
  split; [apply H1 | apply H2]; unfold GRACE_PERIOD_MS; lia.
Defined.

(** ** Basic facts about the health map *)

Lemma healthyNonPrimaryCount_pos (sh : gmap string HealthRecord) :
  (0 <? healthyNonPrimaryCount sh)%nat = true ↔
  ∃ k h, sh !! k = Some h ∧ healthyNonPrimary h = true.
Proof.
  unfold healthyNonPrimaryCount. rewrite Nat.ltb_lt. split.
  - intros Hlen.
    destruct (List.filter healthyNonPrimary (map_to_list sh).*2) as [|h l] eqn:E;
      [simpl in Hlen; lia|].
    assert (Hin : In h (List.filter healthyNonPrimary (map_to_list sh).*2))
      by (rewrite E; left; done).
    apply filter_In in Hin as [Hin Hh].
    apply list_elem_of_In, list_elem_of_fmap in Hin as [[k h'] [-> Hkh]].
    apply elem_of_map_to_list in Hkh. eauto.
  - intros (k & h & Hk & Hh).
    assert (Hin : In h (List.filter healthyNonPrimary (map_to_list sh).*2)).
    { apply filter_In. split; [|done].
      apply list_elem_of_In, list_elem_of_fmap. exists (k, h). split; [done|].
      by apply elem_of_map_to_list. }
    destruct (List.filter _ _); [destruct Hin | simpl; lia].
Qed.

Lemma same_vitals_sym m1 m2 : same_vitals m1 m2 → same_vitals m2 m1.
Proof. intros H k. by rewrite H. Qed.

Lemma same_vitals_trans m1 m2 m3 :
  same_vitals m1 m2 → same_vitals m2 m3 → same_vitals m1 m3.
Proof. intros H1 H2 k. by rewrite H1, H2. Qed.

Lemma same_vitals_lookup m1 m2 k h1 :
  same_vitals m1 m2 → m1 !! k = Some h1 →
  ∃ h2, m2 !! k = Some h2 ∧ vitals h2 = vitals h1.
Proof.
  intros H Hk. specialize (H k). rewrite Hk in H. simpl in H.
  destruct (m2 !! k) as [h2|]; [|done]. simpl in H.
  exists h2. split; [done|]. congruence.
Qed.

Lemma vitals_healthyNonPrimary h1 h2 :
  vitals h1 = vitals h2 → healthyNonPrimary h1 = healthyNonPrimary h2.
Proof. unfold vitals, healthyNonPrimary. intros [= -> -> _]. done. Qed.

Lemma same_vitals_count m1 m2 :
  same_vitals m1 m2 →
  (0 <? healthyNonPrimaryCount m1)%nat = (0 <? healthyNonPrimaryCount m2)%nat.
Proof.
  intros H. apply eq_true_iff_eq. rewrite !healthyNonPrimaryCount_pos.
  split; intros (k & h & Hk & Hh).
  - destruct (same_vitals_lookup _ _ _ _ H Hk) as (h2 & ? & Hv).
    exists k, h2. split; [done|]. by rewrite (vitals_healthyNonPrimary _ _ Hv).
  - destruct (same_vitals_lookup _ _ _ _ (same_vitals_sym _ _ H) Hk) as (h2 & ? & Hv).
    exists k, h2. split; [done|]. by rewrite (vitals_healthyNonPrimary _ _ Hv).
Qed.

(** ** Resynchronisation with the ground truth *)

Lemma bool_decide_ip_cons k s (servers : list Server) :
  bool_decide (k ∈ ip s :: (ip <$> servers))
  = bool_decide (k = ip s) || bool_decide (k ∈ ip <$> servers).
Proof.
  apply eq_true_iff_eq.
  rewrite orb_true_iff, !bool_decide_eq_true, elem_of_cons. done.
Qed.

Lemma resync_lookup ips servers sh sh' k :
  resync ips servers sh = Some sh' →
  sh' !! k = if bool_decide (k ∈ ip <$> servers)
             then set_isAssigned (bool_decide (k ∈ ips)) <$> sh !! k
             else sh !! k.
Proof.
  revert sh. induction servers as [|s servers IH]; intros sh Hr; simpl in Hr.
  - by simplify_eq.
  - destruct (sh !! ip s) as [h|] eqn:Hs; simplify_eq/=.
    rewrite (IH _ Hr), ?fmap_cons, bool_decide_ip_cons.
    destruct (decide (k = ip s)) as [->|Hne].
    + rewrite lookup_insert_eq, Hs, (bool_decide_eq_true_2 (ip s = ip s)) by done.
      simpl. destruct (bool_decide (ip s ∈ ip <$> servers)); reflexivity.
    + rewrite lookup_insert_ne, (bool_decide_eq_false_2 (k = ip s)) by done.
      done.
Qed.

Lemma resync_is_Some ips servers sh :
  (∀ s, s ∈ servers → is_Some (sh !! ip s)) →
  is_Some (resync ips servers sh).
Proof.
  revert sh. induction servers as [|s servers IH]; intros sh Hwf; simpl.
  - done.
  - destruct (Hwf s) as [h Hh]; [set_solver|]. rewrite Hh. simpl.
    apply IH. intros s' Hs'. destruct (decide (ip s = ip s')) as [->|].
    + rewrite lookup_insert_eq. done.
    + rewrite lookup_insert_ne by done. apply Hwf. set_solver.
Qed.

Lemma resync_same_vitals ips servers sh sh' :
  resync ips servers sh = Some sh' → same_vitals sh sh'.
Proof.
  intros Hr k. rewrite (resync_lookup _ _ _ _ k Hr).
  case_bool_decide; [|done]. by destruct (sh !! k).
Qed.

Lemma wf_state_iff servers sh :
  wf_state servers sh ↔
  ∀ k, is_Some (sh !! k) ↔ ∃ s, s ∈ servers ∧ ip s = k.
Proof.
  unfold wf_state. rewrite set_eq.
  apply forall_proper. intros k.
  rewrite elem_of_dom, elem_of_list_to_set, list_elem_of_fmap.
  split; intros H; (etrans; [exact H|]); split; intros (s & ? & ?); eauto.
Qed.

Lemma wf_state_lookup servers sh s :
  wf_state servers sh → s ∈ servers → is_Some (sh !! ip s).
Proof. rewrite wf_state_iff. intros H Hs. apply H. eauto. Qed.

Lemma same_vitals_wf servers m1 m2 :
  same_vitals m1 m2 → wf_state servers m1 → wf_state servers m2.
Proof.
  rewrite !wf_state_iff.
  intros H Hwf k. etrans; [|exact (Hwf k)]. specialize (H k).
  destruct (m1 !! k), (m2 !! k); simplify_eq/=; split; intros [? ?]; eauto.
Qed.

(** ** The health store *)

Lemma initServerHealth_lookup servers k :
  initServerHealth servers !! k
  = if bool_decide (k ∈ ip <$> servers) then Some initialHealth else None.
Proof.
  unfold initServerHealth.
  assert (∀ m : gmap string HealthRecord,
    foldl (λ sh s, <[ip s := initialHealth]> sh) m servers !! k
    = if bool_decide (k ∈ ip <$> servers) then Some initialHealth else m !! k)
    as H; [|by rewrite H].
  induction servers as [|s servers IH]; intros m; [done|].
  cbn [foldl]. rewrite IH, ?fmap_cons, bool_decide_ip_cons.
  destruct (bool_decide (k ∈ ip <$> servers)); [by rewrite orb_true_r|].
  rewrite orb_false_r. destruct (decide (k = ip s)) as [->|].
  - rewrite lookup_insert_eq, (bool_decide_eq_true_2 (ip s = ip s)) by done. done.
  - rewrite lookup_insert_ne, (bool_decide_eq_false_2 (k = ip s)) by done. done.
Qed.

Lemma initServerHealth_wf servers : wf_state servers (initServerHealth servers).
Proof.
  apply wf_state_iff.
  intros k. rewrite initServerHealth_lookup. case_bool_decide as H.
  - split; [|done]. intros _. apply list_elem_of_fmap in H as (s & -> & ?). eauto.
  - split; [by intros [? ?]|]. intros (s & ? & <-). destruct H.
    apply list_elem_of_fmap. eauto.
Qed.

Lemma updateServerHealth_never_healthy now sh server r sh' k :
  updateServerHealth now sh server r = Some sh' →
  (ip server = k → probe_isHealthy r = false) →
  (∃ h, sh !! k = Some h ∧ never_healthy h) →
  ∃ h, sh' !! k = Some h ∧ never_healthy h.
Proof.
  unfold updateServerHealth. intros Hu Hr (h & Hk & Hh & Hl).
  destruct (sh !! ip server) as [h0|] eqn:E; simplify_eq/=.
  destruct (decide (ip server = k)) as [Heq|Hne].
  - rewrite (Hr Heq) in Hu. subst k. simplify_eq/=. rewrite Hh in Hu.
    simpl in Hu. simplify_eq. rewrite lookup_insert_eq.
    eexists; split; [done|]. done.
  - exists h. split; [|done].
    repeat case_match; simplify_eq; by rewrite lookup_insert_ne.
Qed.

Lemma updateAll_never_healthy clock i sh results sh' k :
  updateAll clock i sh results = Some sh' →
  (∀ server r, (server, r) ∈ results → ip server = k →
               probe_isHealthy r = false) →
  (∃ h, sh !! k = Some h ∧ never_healthy h) →
  ∃ h, sh' !! k = Some h ∧ never_healthy h.
Proof.
  revert i sh. induction results as [|[server r] results IH];
    intros i sh Hu Hr Hk; simpl in Hu.
  - by simplify_eq.
  - destruct (updateServerHealth (clock i) sh server r) as [sh1|] eqn:E;
      simplify_eq/=.
    eapply IH; [done| |].
    + intros ???. apply Hr. by apply list_elem_of_further.
    + eapply updateServerHealth_never_healthy; [done| |done].
      apply Hr. by apply list_elem_of_here.
Qed.

(** C10: a server that every probe since process start found unhealthy has
    [lastUnhealthyTime = null]; if the ground truth lists its address among
    at least two published addresses, [shouldUnassignIP] answers [true] at
    once: the elapsed time is [now - 0], and [now] (milliseconds since 1970)
    is not below the grace period. *)
Theorem shouldUnassignIP_unhealthy_since_start
    servers clock results sh1 currentRecords sh2 server now :
  server ∈ servers →
  updateAll clock 0 (initServerHealth servers) results = Some sh1 →
  (∀ s r, (s, r) ∈ results → ip s = ip server → probe_isHealthy r = false) →
  resync (currentIPs currentRecords) servers sh1 = Some sh2 →
  ip server ∈ currentIPs currentRecords →
  (2 ≤ size (currentIPs currentRecords))%nat →
  (GRACE_PERIOD_MS ≤ now)%Z →
  (∃ h, sh2 !! ip server = Some h ∧ lastUnhealthyTime h = None
        ∧ isHealthy h = false ∧ isAssigned h = true)
  ∧ shouldUnassignIP now sh2 server (size (currentIPs currentRecords))
    = Some true.
Proof.
  intros Hs Hu Hr Hsync Hin Hn Hnow.
  destruct (updateAll_never_healthy _ _ _ _ _ (ip server) Hu Hr)
    as (h & Hh & Hf & Hl).
  { exists initialHealth. split; [|done].
    rewrite initServerHealth_lookup, bool_decide_eq_true_2; [done|].
    apply list_elem_of_fmap. eauto. }
  pose proof (resync_lookup _ _ _ _ (ip server) Hsync) as Hl2.
  rewrite bool_decide_eq_true_2, Hh in Hl2
    by (apply list_elem_of_fmap; eauto).
  simpl in Hl2. rewrite bool_decide_eq_true_2 in Hl2 by done.
  split; [eexists; split; [exact Hl2|done]|].
  unfold shouldUnassignIP. rewrite Hl2. simpl. rewrite Hf, Hl. simpl.
  rewrite andb_false_r.
  destruct (Nat.leb_spec (size (currentIPs currentRecords)) 1); [lia|].
  destruct (Z.ltb_spec (now - 0) GRACE_PERIOD_MS); [lia|done].
Qed.

(** ** The stable sort *)

Lemma sort_insert_perm {A} (cmp : A → A → Z) x l :
  sort_insert cmp x l ≡ₚ x :: l.
Proof.
  induction l as [|y l IH]; simpl; [done|].
  destruct (0 <? cmp x y)%Z; [|done].
  rewrite IH. apply perm_swap.
Qed.

Lemma js_sort_perm {A} (cmp : A → A → Z) l : js_sort cmp l ≡ₚ l.
Proof.
  induction l as [|x l IH]; simpl; [done|].
  rewrite sort_insert_perm. by f_equiv.
Qed.

Lemma js_sort_elem_of {A} (cmp : A → A → Z) l x : x ∈ js_sort cmp l ↔ x ∈ l.
Proof. by rewrite js_sort_perm. Qed.

Lemma sort_insert_assign s l :
  sort_insert compareActions (assign s) l = assign s :: l.
Proof. destruct l as [|[] l]; done. Qed.

Lemma sort_insert_unassign s rid l1 l2 :
  Forall (λ a, is_assign a = true) l1 →
  Forall (λ a, is_unassign a = true) l2 →
  sort_insert compareActions (unassign s rid) (l1 ++ l2)
  = l1 ++ unassign s rid :: l2.
Proof.
  intros H1 H2. induction H1 as [|a l1 Ha _ IH]; simpl.
  - destruct H2 as [|b l2 Hb _]; [done|]. by destruct b.
  - destruct a; [|done]. simpl. by rewrite IH.
Qed.

Lemma filter_is_assign_Forall l :
  Forall (λ a, is_assign a = true) (List.filter is_assign l).
Proof.
  apply Forall_forall. intros a Ha%list_elem_of_In%filter_In. tauto.
Qed.

Lemma filter_is_unassign_Forall l :
  Forall (λ a, is_unassign a = true) (List.filter is_unassign l).
Proof.
  apply Forall_forall. intros a Ha%list_elem_of_In%filter_In. tauto.
Qed.

(** Sorting a batch with [compareActions] puts the assigns first and keeps
    the planning order within each kind. *)
Lemma js_sort_compareActions l :
  js_sort compareActions l
  = List.filter is_assign l ++ List.filter is_unassign l.
Proof.
  induction l as [|a l IH]; [done|].
  change (js_sort compareActions (a :: l))
    with (sort_insert compareActions a (js_sort compareActions l)).
  rewrite IH. destruct a as [s|s rid]; simpl.
  - apply sort_insert_assign.
  - apply sort_insert_unassign;
      [apply filter_is_assign_Forall | apply filter_is_unassign_Forall].
Qed.

Lemma partition_order (l1 l2 : list Action) i j a b :
  Forall (λ a, is_assign a = true) l1 →
  Forall (λ a, is_unassign a = true) l2 →
  (l1 ++ l2) !! i = Some a → (l1 ++ l2) !! j = Some b →
  is_assign a = true → is_unassign b = true → i < j.
Proof.
  intros H1 H2 Hi Hj Ha Hb.
  apply lookup_app_Some in Hi as [Hi|[Hle Hi]].
  - apply lookup_app_Some in Hj as [Hj|[Hle Hj]].
    + apply list_elem_of_lookup_2 in Hj.
      rewrite Forall_forall in H1. specialize (H1 _ Hj). by destruct b.
    + apply lookup_lt_Some in Hi. lia.
  - apply list_elem_of_lookup_2 in Hi.
    rewrite Forall_forall in H2. specialize (H2 _ Hi). by destruct a.
Qed.

(** C6: in the batch a run of [manageDNSRecords] issues, every assign action
    comes before every unassign action. *)
Theorem assigns_before_unassigns
    localeCompare newId clock oks servers sh store fetched sh' store' batch
    i j a b :
  manageDNSRecords localeCompare newId clock oks servers sh store fetched
  = Some (sh', store', batch) →
  batch !! i = Some a → batch !! j = Some b →
  is_assign a = true → is_unassign b = true →
  i < j.
Proof.
  unfold manageDNSRecords, planActions. intros Hrun Hi Hj Ha Hb.
  destruct fetched; [|by simplify_eq].
  destruct (resync _ servers sh) as [sh1|]; simplify_eq/=.
  destruct (planLoop _ _ _ _ _ _ _) as [acts|]; simplify_eq/=.
  rewrite js_sort_compareActions in Hi, Hj.
  eapply partition_order; eauto using filter_is_assign_Forall,
    filter_is_unassign_Forall.
Qed.

(** ** The planning loop *)

(** The elapsed time that [shouldUnassignIP] compares with the grace period,
    by the two cases of [lastUnhealthyTime]. *)
Lemma graceOver_iff now h :
  graceOver now h ↔
  (GRACE_PERIOD_MS ≤ now - toNumber (lastUnhealthyTime h))%Z.
Proof.
  unfold graceOver, toNumber.
  destruct (lastUnhealthyTime h) as [T|]; simpl; split.
  - intros [(T' & [= <-] & ?)|[[=] _]]. lia.
  - intros ?. left. exists T. split; [reflexivity|lia].
  - intros [(T' & [=] & _)|[_ ?]]. lia.
  - intros ?. right. split; [reflexivity|lia].
Qed.

Lemma findRecord_Some currentRecords ip0 r :
  findRecord currentRecords ip0 = Some r → r ∈ currentRecords ∧ content r = ip0.
Proof.
  unfold findRecord. intros [Hin Heq]%find_some.
  split; [by apply list_elem_of_In | by apply String.eqb_eq].
Qed.

Lemma findRecord_is_Some currentRecords ip0 :
  ip0 ∈ currentIPs currentRecords → is_Some (findRecord currentRecords ip0).
Proof.
  unfold currentIPs, findRecord. rewrite elem_of_list_to_set, list_elem_of_fmap.
  intros (r & -> & Hin).
  destruct (List.find _ currentRecords) as [r'|] eqn:E; [done|].
  apply list_elem_of_In in Hin.
  pose proof (find_none _ _ E _ Hin) as Hn. simpl in Hn.
  by rewrite String.eqb_refl in Hn.
Qed.

Lemma planStep_eq now sh currentRecords assignedCount actions server health :
  sh !! ip server = Some health →
  planStep now sh currentRecords assignedCount actions server
  = Some (actions ++
          stepActions now sh currentRecords assignedCount actions server health).
Proof.
  intros Hh. unfold planStep, shouldAssignIP, shouldUnassignIP, stepActions.
  rewrite Hh. simpl.
  destruct (isHealthy health), (isAssigned health), (isPrimary health),
    (0 <? healthyNonPrimaryCount sh)%nat; simpl; rewrite ?Hh; simpl;
    destruct (findRecord currentRecords (ip server)),
      (hasUnassignFor actions (ip server)),
      (assignedCount <=? 1)%nat,
      (now - toNumber (lastUnhealthyTime health) <? GRACE_PERIOD_MS)%Z;
    simpl; rewrite ?app_nil_r; reflexivity.
Qed.

Lemma hasUnassignFor_app actions1 actions2 ip0 :
  hasUnassignFor (actions1 ++ actions2) ip0
  = hasUnassignFor actions1 ip0 || hasUnassignFor actions2 ip0.
Proof. unfold hasUnassignFor. apply existsb_app. Qed.

Lemma hasUnassignFor_true actions ip0 :
  hasUnassignFor actions ip0 = true ↔
  ∃ s recordId, unassign s recordId ∈ actions ∧ ip s = ip0.
Proof.
  unfold hasUnassignFor. rewrite existsb_exists. split.
  - intros ([s|s rid] & Hin & Ha); [done|]. simpl in Ha.
    apply String.eqb_eq in Ha. exists s, rid. by rewrite list_elem_of_In.
  - intros (s & rid & Hin & <-). exists (unassign s rid).
    split; [by apply list_elem_of_In|]. simpl. apply String.eqb_refl.
Qed.

Lemma stepActions_justified clock i sh currentRecords n actions server h a :
  sh !! ip server = Some h →
  a ∈ stepActions (clock i) sh currentRecords n actions server h →
  justified clock sh currentRecords n a ∧ action_server a = server.
Proof.
  intros Hh. unfold stepActions.
  destruct (isHealthy h) eqn:Hhealthy, (isAssigned h) eqn:Hassigned; simpl.
  - destruct (isPrimary h && _) eqn:Hpc; [|by intros ?%elem_of_nil].
    apply andb_true_iff in Hpc as [Hprimary Hcount].
    destruct (hasUnassignFor _ _); [by intros ?%elem_of_nil|].
    destruct (findRecord _ _) as [r|] eqn:Hr; [|by intros ?%elem_of_nil].
    intros ->%list_elem_of_singleton. split; [|done].
    exists h, r. split_and!; [done|done|done|]. right. by split_and!.
  - destruct (isPrimary h && _) eqn:Hpc; [by intros ?%elem_of_nil|].
    apply andb_false_iff in Hpc.
    intros ->%list_elem_of_singleton. split; [|done].
    exists h. split; [done|]. by split_and!.
  - destruct (Nat.leb_spec n 1); simpl; [by intros ?%elem_of_nil|].
    destruct (Z.ltb_spec (clock i - toNumber (lastUnhealthyTime h))
                         GRACE_PERIOD_MS); simpl; [by intros ?%elem_of_nil|].
    destruct (findRecord _ _) as [r|] eqn:Hr; [|by intros ?%elem_of_nil].
    intros ->%list_elem_of_singleton. split; [|done].
    exists h, r. split_and!; [done|done|done|]. left.
    split_and!; [done|done|lia|]. by exists i.
  - by intros ?%elem_of_nil.
Qed.

Lemma stepActions_assignable now sh currentRecords n actions server h :
  assignable sh h →
  stepActions now sh currentRecords n actions server h = [assign server].
Proof.
  intros (Hhealthy & Hassigned & Hp). unfold stepActions.
  rewrite Hhealthy, Hassigned. destruct Hp as [-> | ->]; [done|].
  by rewrite andb_false_r.
Qed.

Lemma stepActions_demotable now sh currentRecords n actions server h r :
  demotable sh h →
  findRecord currentRecords (ip server) = Some r →
  hasUnassignFor
    (actions ++ stepActions now sh currentRecords n actions server h)
    (ip server) = true.
Proof.
  intros (Hassigned & Hhealthy & Hprimary & Hcount) Hr. unfold stepActions.
  rewrite Hhealthy, Hassigned, Hprimary, Hcount, Hr. simpl.
  rewrite hasUnassignFor_app.
  destruct (hasUnassignFor actions (ip server)); [done|]. simpl.
  by rewrite String.eqb_refl.
Qed.

(** The planning loop returns, appends to the actions it was given, and what
    it appends is justified and complete. *)
Lemma planLoop_spec clock sh currentRecords n l :
  (∀ s, s ∈ l → is_Some (sh !! ip s)) →
  ∀ i actions, ∃ new,
    planLoop clock i sh currentRecords n actions l = Some (actions ++ new)
    ∧ Forall (λ a, justified clock sh currentRecords n a
                   ∧ action_server a ∈ l) new
    ∧ (∀ s h, s ∈ l → sh !! ip s = Some h → assignable sh h →
              assign s ∈ new)
    ∧ (∀ s h r, s ∈ l → sh !! ip s = Some h → demotable sh h →
                findRecord currentRecords (ip s) = Some r →
                hasUnassignFor (actions ++ new) (ip s) = true).
Proof.
  induction l as [|s l IH]; intros Hwf i actions.
  - exists []. rewrite app_nil_r. split_and!; [done|done| |];
      intros; by exfalso; eapply elem_of_nil.
  - destruct (Hwf s) as [h Hh]; [apply list_elem_of_here|].
    destruct (IH (λ s' Hs', Hwf s' (list_elem_of_further _ _ _ Hs')) (S i)
      (actions ++ stepActions (clock i) sh currentRecords n actions s h))
      as (new & Hloop & Hjust & Hassign & Hdemote).
    exists (stepActions (clock i) sh currentRecords n actions s h ++ new).
    simpl. rewrite (planStep_eq _ _ _ _ _ _ h Hh). simpl.
    rewrite Hloop, <- app_assoc. split_and!.
    + done.
    + apply Forall_app. split.
      * apply Forall_forall. intros a Ha.
        destruct (stepActions_justified _ _ _ _ _ _ _ _ _ Hh Ha) as [? ->].
        split; [done | apply list_elem_of_here].
      * eapply Forall_impl; [exact Hjust|]. intros a [? ?].
        split; [done | by apply list_elem_of_further].
    + intros s0 h0 [->|Hin]%elem_of_cons Hh0 Ha.
      * simplify_eq. rewrite stepActions_assignable by done.
        apply list_elem_of_here.
      * apply elem_of_app. right. eauto.
    + intros s0 h0 r [->|Hin]%elem_of_cons Hh0 Hd Hr.
      * simplify_eq. rewrite app_assoc, hasUnassignFor_app.
        by rewrite (stepActions_demotable _ _ _ _ _ _ _ _ Hd Hr).
      * rewrite app_assoc. eauto.
Qed.

(** The loop only appends to the actions it was given. *)
Lemma planLoop_extends clock sh currentRecords n l :
  ∀ i actions result,
    planLoop clock i sh currentRecords n actions l = Some result →
    ∃ new, result = actions ++ new.
Proof.
  induction l as [|s l IH]; intros i actions result Hloop;
    cbn [planLoop] in Hloop.
  - exists []. rewrite app_nil_r. congruence.
  - destruct (sh !! ip s) as [h|] eqn:Hh.
    + rewrite (planStep_eq _ _ _ _ _ _ h Hh) in Hloop. simpl in Hloop.
      destruct (IH _ _ _ Hloop) as [new ->].
      eexists. by rewrite <- app_assoc.
    + unfold planStep in Hloop. rewrite Hh in Hloop. discriminate Hloop.
Qed.

Lemma stepActions_expired now sh currentRecords n actions server h r :
  isAssigned h = true → isHealthy h = false → (2 ≤ n)%nat →
  (GRACE_PERIOD_MS ≤ now - toNumber (lastUnhealthyTime h))%Z →
  findRecord currentRecords (ip server) = Some r →
  stepActions now sh currentRecords n actions server h
  = [unassign server (record_id r)].
Proof.
  intros Ha Hh Hn Hg Hr. unfold stepActions. rewrite Hh, Ha, Hr. simpl.
  destruct (Nat.leb_spec n 1); [lia|]. simpl.
  destruct (Z.ltb_spec (now - toNumber (lastUnhealthyTime h)) GRACE_PERIOD_MS);
    [lia|reflexivity].
Qed.

(** The loop plans the removal of every published, unhealthy server whose
    grace period is over at every clock reading, when at least two addresses
    are published. *)
Lemma planLoop_expired clock sh currentRecords n l :
  ∀ i actions result,
    planLoop clock i sh currentRecords n actions l = Some result →
    ∀ s h r, s ∈ l → sh !! ip s = Some h →
      isAssigned h = true → isHealthy h = false → (2 ≤ n)%nat →
      (∀ j, (GRACE_PERIOD_MS ≤ clock j - toNumber (lastUnhealthyTime h))%Z) →
      findRecord currentRecords (ip s) = Some r →
      unassign s (record_id r) ∈ result.
Proof.
  induction l as [|s0 l IH];
    intros i actions result Hloop s h r Hs Hh Ha Hu Hn Hg Hr.
  - by apply elem_of_nil in Hs.
  - cbn [planLoop] in Hloop.
    destruct (sh !! ip s0) as [h0|] eqn:Hh0.
    2:{ unfold planStep in Hloop. rewrite Hh0 in Hloop. discriminate Hloop. }
    rewrite (planStep_eq _ _ _ _ _ _ h0 Hh0) in Hloop. simpl in Hloop.
    apply elem_of_cons in Hs as [->|Hs].
    + rewrite Hh in Hh0. injection Hh0 as <-.
      rewrite (stepActions_expired _ _ _ _ _ _ _ r Ha Hu Hn (Hg i) Hr) in Hloop.
      destruct (planLoop_extends _ _ _ _ _ _ _ _ Hloop) as [new ->].
      apply elem_of_app. left. apply elem_of_app. right.
      apply list_elem_of_here.
    + by eapply (IH _ _ _ Hloop s h r).
Qed.

(** ** The plan of a run *)

Lemma sorted_batch_elem_of (actions : list Action) a :
  a ∈ List.filter is_assign actions ++ List.filter is_unassign actions ↔
  a ∈ actions.
Proof.
  rewrite elem_of_app, !list_elem_of_In, !filter_In.
  destruct a; simpl; intuition congruence.
Qed.

(** What a server's entry looks like after the resynchronisation. *)
Lemma resync_server_lookup ips servers sh sh1 s h :
  resync ips servers sh = Some sh1 → s ∈ servers → sh !! ip s = Some h →
  sh1 !! ip s = Some (set_isAssigned (bool_decide (ip s ∈ ips)) h).
Proof.
  intros Hr Hs Hh. rewrite (resync_lookup _ _ _ _ _ Hr), Hh.
  rewrite bool_decide_eq_true_2; [done|]. by apply list_elem_of_fmap_2.
Qed.

Lemma resync_server_lookup_inv ips servers sh sh1 s h1 :
  resync ips servers sh = Some sh1 → s ∈ servers → sh1 !! ip s = Some h1 →
  ∃ h, sh !! ip s = Some h
       ∧ h1 = set_isAssigned (bool_decide (ip s ∈ ips)) h.
Proof.
  intros Hr Hs Hh1. rewrite (resync_lookup _ _ _ _ _ Hr) in Hh1.
  rewrite bool_decide_eq_true_2 in Hh1 by by apply list_elem_of_fmap_2.
  destruct (sh !! ip s) as [h|]; simplify_eq/=. eauto.
Qed.

Section Plan.
Variable localeCompare : string → string → Z.

(** [planActions] returns whenever every configured server has its entry;
    the batch is the sorted list of the justified actions, and it contains
    an assign for every assignable server and an unassign for the address
    of every demotable server. *)
Lemma planActions_spec clock servers sh currentRecords :
  wf_state servers sh →
  ∃ sh1 batch,
    resync (currentIPs currentRecords) servers sh = Some sh1
    ∧ planActions localeCompare clock servers sh currentRecords
      = Some (sh1, batch)
    ∧ (∃ assigns unassigns,
          batch = assigns ++ unassigns
          ∧ Forall (λ a, is_assign a = true) assigns
          ∧ Forall (λ a, is_unassign a = true) unassigns)
    ∧ Forall (λ a, justified clock sh1 currentRecords
                     (size (currentIPs currentRecords)) a
                   ∧ action_server a ∈ servers) batch
    ∧ (∀ s h, s ∈ servers → sh1 !! ip s = Some h → assignable sh1 h →
              assign s ∈ batch)
    ∧ (∀ s h, s ∈ servers → sh1 !! ip s = Some h → demotable sh1 h →
              hasUnassignFor batch (ip s) = true).
Proof.
  intros Hwf. unfold planActions.
  destruct (resync_is_Some (currentIPs currentRecords) servers sh)
    as [sh1 Hsync]; [intros; by eapply wf_state_lookup|].
  rewrite Hsync. simpl.
  destruct (planLoop_spec clock sh1 currentRecords
              (size (currentIPs currentRecords))
              (js_sort (compareServers localeCompare) servers))
    with (i := 0) (actions := @nil Action)
    as (actions & Hloop & Hjust & Hassign & Hdemote).
  { intros s Hs%js_sort_elem_of.
    eapply wf_state_lookup; [|done].
    eapply same_vitals_wf; [by eapply resync_same_vitals|done]. }
  rewrite Hloop. simpl. rewrite js_sort_compareActions.
  eexists _, _. split_and!; [done|done| | | |].
  - eexists _, _. split; [done|].
    split; [apply filter_is_assign_Forall | apply filter_is_unassign_Forall].
  - apply Forall_forall. intros a Ha.
    apply (proj1 (sorted_batch_elem_of actions a)) in Ha.
    rewrite Forall_forall in Hjust. destruct (Hjust a Ha) as [? ?%js_sort_elem_of].
    done.
  - intros s h Hs Hh Ha. apply sorted_batch_elem_of.
    eapply Hassign; [by apply js_sort_elem_of|done|done].
  - intros s h Hs Hh Hd.
    destruct (resync_server_lookup_inv _ _ _ _ _ _ Hsync Hs Hh) as (h0 & _ & ->).
    pose proof (proj1 Hd) as Hassigned. simpl in Hassigned.
    apply bool_decide_eq_true in Hassigned.
    destruct (findRecord_is_Some _ _ Hassigned) as [r Hr].
    assert (Hex : hasUnassignFor ([] ++ actions) (ip s) = true).
    { eapply Hdemote; [by apply js_sort_elem_of|done|done|done]. }
    apply hasUnassignFor_true in Hex as (s' & rid & Hin & Heq).
    apply hasUnassignFor_true. exists s', rid.
    split; [by apply sorted_batch_elem_of|done].
Qed.

(** The batch holds the removal of every published, unhealthy server whose
    grace period is over at every clock reading of the run, when at least
    two addresses are published. *)
Lemma planActions_expired clock servers sh currentRecords sh1 batch s h1 r :
  planActions localeCompare clock servers sh currentRecords
  = Some (sh1, batch) →
  s ∈ servers → sh1 !! ip s = Some h1 →
  isAssigned h1 = true → isHealthy h1 = false →
  (2 ≤ size (currentIPs currentRecords))%nat →
  (∀ j, (GRACE_PERIOD_MS ≤ clock j - toNumber (lastUnhealthyTime h1))%Z) →
  findRecord currentRecords (ip s) = Some r →
  unassign s (record_id r) ∈ batch.
Proof.
  unfold planActions. cbv zeta. intros Hplan Hs Hh1 Ha Hu Hn Hg Hr.
  destruct (resync (currentIPs currentRecords) servers sh) as [sh1'|];
    [|discriminate Hplan].
  simpl in Hplan.
  destruct (planLoop clock 0 sh1' currentRecords
              (size (currentIPs currentRecords)) []
              (js_sort (compareServers localeCompare) servers))
    as [actions|] eqn:Hloop; [|discriminate Hplan].
  simpl in Hplan. injection Hplan as <- <-.
  rewrite js_sort_compareActions. apply sorted_batch_elem_of.
  eapply (planLoop_expired _ _ _ _ _ _ _ _ Hloop s h1 r); try done.
  by apply js_sort_elem_of.
Qed.
End Plan.

(** With a well-formed health map, the count of healthy non-primary entries
    is positive iff a configured server is healthy and not primary. *)
Lemma healthyNonPrimaryCount_servers servers sh :
  wf_state servers sh →
  (0 <? healthyNonPrimaryCount sh)%nat = true ↔
  ∃ s h, s ∈ servers ∧ sh !! ip s = Some h
         ∧ isHealthy h = true ∧ isPrimary h = false.
Proof.
  intros Hwf. rewrite healthyNonPrimaryCount_pos. unfold healthyNonPrimary.
  split.
  - intros (k & h & Hk & [? ?%negb_true_iff]%andb_true_iff).
    destruct (proj1 (proj1 (wf_state_iff _ _) Hwf k)) as (s & ? & <-); [done|].
    eauto 10.
  - intros (s & h & _ & ? & Hhealthy & Hprimary).
    exists (ip s), h. by rewrite Hhealthy, Hprimary.
Qed.

Lemma same_vitals_count_servers servers sh sh1 :
  wf_state servers sh → same_vitals sh sh1 →
  (0 <? healthyNonPrimaryCount sh1)%nat = true ↔
  ∃ s h, s ∈ servers ∧ sh !! ip s = Some h
         ∧ isHealthy h = true ∧ isPrimary h = false.
Proof.
  intros Hwf Hv. rewrite <- (same_vitals_count _ _ Hv).
  by apply healthyNonPrimaryCount_servers.
Qed.

(** ** Assignment eligibility *)

Section Eligibility.
Variable localeCompare : string → string → Z.

(** C4: [shouldAssignIP] answers [true] iff the server is healthy, not
    assigned, and either not primary or no configured server is healthy and
    non-primary; so the plan never assigns a primary server while a healthy
    non-primary server exists, and does assign an unpublished primary
    server that is the only healthy one. *)
Theorem shouldAssignIP_spec clock servers sh currentRecords server h :
  wf_state servers sh → server ∈ servers → sh !! ip server = Some h →
  (∃ b, shouldAssignIP sh server = Some b
        ∧ (b = true ↔
           isHealthy h = true ∧ isAssigned h = false
           ∧ (isPrimary h = false
              ∨ ¬ ∃ s' h', s' ∈ servers ∧ sh !! ip s' = Some h'
                           ∧ isHealthy h' = true ∧ isPrimary h' = false)))
  ∧ ∃ sh1 batch,
      planActions localeCompare clock servers sh currentRecords
      = Some (sh1, batch)
      ∧ (isPrimary h = true →
         (∃ s' h', s' ∈ servers ∧ sh !! ip s' = Some h'
                   ∧ isHealthy h' = true ∧ isPrimary h' = false) →
         assign server ∉ batch)
      ∧ (isPrimary h = true → isHealthy h = true →
         ip server ∉ currentIPs currentRecords →
         (∀ s' h', s' ∈ servers → sh !! ip s' = Some h' →
                   isHealthy h' = true → ip s' = ip server) →
         assign server ∈ batch).
Proof.
  intros Hwf Hs Hh. split.
  - unfold shouldAssignIP. rewrite Hh. simpl.
    pose proof (healthyNonPrimaryCount_servers _ _ Hwf) as Hc.
    destruct (isHealthy h), (isAssigned h), (isPrimary h); simpl;
      try (eexists; split; [done|]; intuition congruence).
    destruct (0 <? healthyNonPrimaryCount sh)%nat;
      (eexists; split; [done|]); intuition congruence.
  - destruct (planActions_spec localeCompare clock servers sh currentRecords Hwf)
      as (sh1 & batch & Hsync & Hplan & _ & Hjust & Hassign & _).
    pose proof (resync_same_vitals _ _ _ _ Hsync) as Hv.
    pose proof (same_vitals_count_servers _ _ _ Hwf Hv) as Hc.
    pose proof (resync_server_lookup _ _ _ _ _ _ Hsync Hs Hh) as Hh1.
    exists sh1, batch. split_and!; [done| |].
    + intros Hp Hex Hin. rewrite Forall_forall in Hjust.
      destruct (Hjust _ Hin) as [(h1 & Hl & _ & _ & Hor) _].
      simpl in Hl. rewrite Hh1 in Hl. simplify_eq/=.
      destruct Hor as [?|Hz]; [congruence|].
      apply Hc in Hex. congruence.
    + intros Hp Hhealthy Hnin Hsole. eapply Hassign; [done|done|].
      split_and!; [done| |].
      * simpl. by apply bool_decide_eq_false.
      * right. apply not_true_is_false. intros (s' & h' & ? & ? & ? & ?)%Hc.
        assert (ip s' = ip server) as Heq by eauto.
        rewrite Heq in *. simplify_eq. congruence.
Qed.

End Eligibility.

Lemma scenario2_wf : wf_state [alpha; charlie] scenario2_health.
Proof. unfold wf_state. vm_compute. reflexivity. Qed.

Lemma scenario2_sole_healthy s' h' :
  s' ∈ [alpha; charlie] → scenario2_health !! ip s' = Some h' →
  isHealthy h' = true → ip s' = ip alpha.
Proof.
  intros [->|[->|[]%elem_of_nil]%elem_of_cons]%elem_of_cons Hl Hhl;
    [reflexivity|].
  vm_compute in Hl. injection Hl as <-. discriminate Hhl.
Qed.

Lemma shouldAssignIP_spec_witness :
  ∃ sh1 batch,
    planActions codepointCompare (λ _, t0 + 45000)%Z [alpha; charlie]
      scenario2_health [] = Some (sh1, batch)
    ∧ assign alpha ∈ batch.
Proof.
  destruct (shouldAssignIP_spec codepointCompare (λ _, t0 + 45000)%Z
              [alpha; charlie] scenario2_health [] alpha
              (healthRecord true true None) scenario2_wf
              (list_elem_of_here _ _) eq_refl)
    as (_ & sh1 & batch & Hplan & _ & Hin).
  exists sh1, batch. split; [exact Hplan|].
  apply Hin; [reflexivity | reflexivity | | exact scenario2_sole_healthy].
  unfold currentIPs. rewrite elem_of_list_to_set. apply not_elem_of_nil.
Defined.

(** ** Cycles in which no server is healthy *)

Lemma outage_wf : wf_state [alpha; charlie] outage_health.
Proof. unfold wf_state. vm_compute. reflexivity. Qed.

(** C2 (as stated, refuted): with no healthy server, two published addresses
    and one of the two servers past the grace period, the plan removes that
    server's record. *)
Lemma outage_plan_unassigns :
  forallb (λ h, negb (isHealthy h)) (snd <$> map_to_list outage_health) = true
  ∧ snd <$> planActions codepointCompare (λ _, t0 + 45000)%Z [alpha; charlie]
              outage_health [recordA; recordC]
    = Some [unassign charlie (record_id recordC)].
Proof. split; vm_compute; reflexivity. Qed.

Section Outage.
Variable localeCompare : string → string → Z.

(** C2 (amended): when no configured server is healthy, the plan contains
    no assign action; it contains an unassign action only for a published
    server whose grace period is over at a clock reading of the run, and
    only when at least two addresses are published; with at most one
    published address it is empty.  The grace period is over when the
    server turned unhealthy at least 30s before the reading, and also when
    it has never been healthy since the process started: its
    [lastUnhealthyTime] is then [null] and counts as time 0, so that the
    first cycle of an outage already removes its record. *)
Theorem no_healthy_server_plan clock servers sh currentRecords :
  wf_state servers sh →
  (∀ s h, s ∈ servers → sh !! ip s = Some h → isHealthy h = false) →
  ∃ sh1 batch,
    planActions localeCompare clock servers sh currentRecords
    = Some (sh1, batch)
    ∧ (∀ s, assign s ∉ batch)
    ∧ (∀ s recordId, unassign s recordId ∈ batch →
         (2 ≤ size (currentIPs currentRecords))%nat
         ∧ s ∈ servers
         ∧ ∃ h r i, sh !! ip s = Some h
                    ∧ r ∈ currentRecords ∧ content r = ip s
                    ∧ recordId = record_id r
                    ∧ graceOver (clock i) h)
    ∧ ((size (currentIPs currentRecords) ≤ 1)%nat → batch = []).
Proof.
  intros Hwf Hdown.
  destruct (planActions_spec localeCompare clock servers sh currentRecords Hwf)
    as (sh1 & batch & Hsync & Hplan & _ & Hjust & _ & _).
  rewrite Forall_forall in Hjust.
  assert (Hdown1 : ∀ s h1, s ∈ servers → sh1 !! ip s = Some h1 →
                           isHealthy h1 = false).
  { intros s h1 Hs Hh1.
    destruct (resync_server_lookup_inv _ _ _ _ _ _ Hsync Hs Hh1)
      as (h & Hh & ->). simpl. eauto. }
  assert (Hno : ∀ s, assign s ∉ batch).
  { intros s Hin. destruct (Hjust _ Hin) as [(h1 & Hh1 & Hhealthy & _) Hs].
    simpl in Hs. rewrite (Hdown1 _ _ Hs Hh1) in Hhealthy. done. }
  assert (Hun : ∀ s recordId, unassign s recordId ∈ batch →
         (2 ≤ size (currentIPs currentRecords))%nat
         ∧ s ∈ servers
         ∧ ∃ h r i, sh !! ip s = Some h
                    ∧ r ∈ currentRecords ∧ content r = ip s
                    ∧ recordId = record_id r
                    ∧ graceOver (clock i) h).
  { intros s rid Hin.
    destruct (Hjust _ Hin) as [(h1 & r & Hh1 & Hr & -> & Hwhy) Hs].
    simpl in Hs.
    destruct (resync_server_lookup_inv _ _ _ _ _ _ Hsync Hs Hh1)
      as (h & Hh & ->).
    apply findRecord_Some in Hr as [Hrin Hrc].
    destruct Hwhy as [(_ & _ & Hn & i & Hi) | (_ & Hhealthy & _)].
    - split_and!; [done|done|]. exists h, r, i.
      split_and!; [done..|]. apply graceOver_iff. exact Hi.
    - simpl in Hhealthy. rewrite (Hdown _ _ Hs Hh) in Hhealthy. done. }
  exists sh1, batch. split_and!; [done|done|done|].
  intros Hle. destruct batch as [|[s|s rid] batch]; [done| |].
  - destruct (Hno s). apply list_elem_of_here.
  - destruct (Hun s rid) as [? _]; [apply list_elem_of_here|lia].
Qed.

End Outage.

Lemma outage_all_unhealthy s h :
  s ∈ [alpha; charlie] → outage_health !! ip s = Some h → isHealthy h = false.
Proof.
  intros [->|[->|[]%elem_of_nil]%elem_of_cons]%elem_of_cons Hl;
    vm_compute in Hl; injection Hl as <-; reflexivity.
Qed.

Lemma no_healthy_server_plan_witness :
  ∃ sh1,
    planActions codepointCompare (λ _, t0 + 45000)%Z [alpha; charlie]
      outage_health [recordC] = Some (sh1, []).
Proof.
  destruct (no_healthy_server_plan codepointCompare (λ _, t0 + 45000)%Z
              [alpha; charlie] outage_health [recordC] outage_wf
              outage_all_unhealthy)
    as (sh1 & batch & Hplan & _ & _ & Hempty).
  exists sh1. rewrite Hplan, Hempty; [reflexivity|]. vm_compute. lia.
Defined.

(** ** Demotion of a primary server *)

Lemma NoDup_fmap_inj_on {A B} (f : A → B) (l : list A) x y :
  NoDup (f <$> l) → x ∈ l → y ∈ l → f x = f y → x = y.
Proof.
  induction l as [|z l IH]; [by intros _ ?%elem_of_nil|].
  rewrite fmap_cons, NoDup_cons.
  intros [Hnin Hnd] [->|H1]%elem_of_cons [->|H2]%elem_of_cons Heq; auto.
  - destruct Hnin. rewrite Heq. by apply list_elem_of_fmap_2.
  - destruct Hnin. rewrite <- Heq. by apply list_elem_of_fmap_2.
Qed.

Section Demotion.
Variable localeCompare : string → string → Z.

(** C5: for a published server that is healthy and primary, the plan holds
    an unassign action for its address iff some configured server is
    healthy and not primary, at whatever time the plan is made and whatever
    the server's [lastUnhealthyTime]: no grace period applies.  When the
    configured addresses are distinct, that action names the server
    itself. *)
Theorem primary_demotion clock servers sh currentRecords server h :
  wf_state servers sh → server ∈ servers → sh !! ip server = Some h →
  ip server ∈ currentIPs currentRecords →
  isHealthy h = true → isPrimary h = true →
  ∃ sh1 batch,
    planActions localeCompare clock servers sh currentRecords
    = Some (sh1, batch)
    ∧ ((∃ s' recordId, unassign s' recordId ∈ batch ∧ ip s' = ip server) ↔
       (∃ s' h', s' ∈ servers ∧ sh !! ip s' = Some h'
                 ∧ isHealthy h' = true ∧ isPrimary h' = false))
    ∧ (NoDup (ip <$> servers) →
       ∀ s' recordId, unassign s' recordId ∈ batch → ip s' = ip server →
                      s' = server).
Proof.
  intros Hwf Hs Hh Hpub Hhealthy Hprimary.
  destruct (planActions_spec localeCompare clock servers sh currentRecords Hwf)
    as (sh1 & batch & Hsync & Hplan & _ & Hjust & _ & Hdemote).
  rewrite Forall_forall in Hjust.
  pose proof (resync_same_vitals _ _ _ _ Hsync) as Hv.
  pose proof (same_vitals_count_servers _ _ _ Hwf Hv) as Hc.
  pose proof (resync_server_lookup _ _ _ _ _ _ Hsync Hs Hh) as Hh1.
  exists sh1, batch. split_and!; [done| |].
  - split.
    + intros (s' & rid & Hin & Heq).
      destruct (Hjust _ Hin) as [(h1 & r & Hl & _ & _ & Hwhy) _].
      simpl in Hl. rewrite Heq, Hh1 in Hl. injection Hl as <-.
      destruct Hwhy as [(_ & Hu & _) | (_ & _ & _ & Hcount)].
      * simpl in Hu. congruence.
      * by apply Hc.
    + intros Hex%Hc. apply hasUnassignFor_true.
      eapply Hdemote; [done|done|].
      split_and!; [|done|done|done]. simpl. by apply bool_decide_eq_true.
  - intros Hnd s' rid Hin Heq.
    destruct (Hjust _ Hin) as [_ Hs']. simpl in Hs'.
    by eapply (NoDup_fmap_inj_on ip).
Qed.

End Demotion.

Lemma scenario3_wf : wf_state [alpha; bravo] scenario3_health.
Proof. unfold wf_state. vm_compute. reflexivity. Qed.

Lemma primary_demotion_witness :
  ∃ sh1 batch,
    planActions codepointCompare (λ _, t0 + 45000)%Z [alpha; bravo]
      scenario3_health [recordA] = Some (sh1, batch)
    ∧ ∃ s' recordId, unassign s' recordId ∈ batch ∧ ip s' = ip alpha.
Proof.
  destruct (primary_demotion codepointCompare (λ _, t0 + 45000)%Z
              [alpha; bravo] scenario3_health [recordA] alpha
              (healthRecord true true None) scenario3_wf
              (list_elem_of_here _ _) eq_refl)
    as (sh1 & batch & Hplan & [_ Hun] & _);
    [ | reflexivity | reflexivity | ].
  - unfold currentIPs. apply elem_of_list_to_set. apply list_elem_of_here.
  - exists sh1, batch. split; [exact Hplan|]. apply Hun.
    exists bravo, (healthRecord true false None).
    split_and!; [|reflexivity|reflexivity|reflexivity].
    apply list_elem_of_further, list_elem_of_here.
Defined.

(** ** Executing a batch *)

Lemma executeActions_app newId oks j st l1 l2 :
  executeActions newId oks j st (l1 ++ l2)
  = executeActions newId oks (j + length l1)
      (executeActions newId oks j st l1) l2.
Proof.
  revert j st. induction l1 as [|a l1 IH]; intros j st; simpl.
  - by rewrite Nat.add_0_r.
  - rewrite IH. f_equal. lia.
Qed.

Lemma alter_set_isAssigned_same_vitals b k (sh : gmap string HealthRecord) :
  same_vitals sh (alter (set_isAssigned b) k sh).
Proof.
  intros k'. rewrite lookup_alter. case_decide; [subst|done].
  by destruct (sh !! k').
Qed.

Lemma executeAction_same_vitals newId ok st a :
  same_vitals st.1 (executeAction newId ok st a).1.
Proof.
  unfold executeAction. destruct ok; [|done].
  destruct a; simpl; apply alter_set_isAssigned_same_vitals.
Qed.

Lemma executeActions_same_vitals newId oks j st l :
  same_vitals st.1 (executeActions newId oks j st l).1.
Proof.
  revert j st. induction l as [|a l IH]; intros j st; simpl; [done|].
  eapply same_vitals_trans; [apply executeAction_same_vitals | apply IH].
Qed.

Lemma deleteRecord_elem_of store recordId r :
  r ∈ deleteRecord store recordId ↔ r ∈ store ∧ record_id r ≠ recordId.
Proof.
  unfold deleteRecord. rewrite !list_elem_of_In, filter_In, negb_true_iff.
  rewrite String.eqb_neq. done.
Qed.

(** A run of successful unassign actions removes exactly the records whose
    ids the actions name. *)
Lemma executeActions_unassigns newId oks j st l r :
  Forall (λ a, is_unassign a = true) l →
  (∀ k, j ≤ k < j + length l → oks k = true) →
  r ∈ (executeActions newId oks j st l).2 ↔
  r ∈ st.2 ∧ ∀ s recordId, unassign s recordId ∈ l → record_id r ≠ recordId.
Proof.
  intros Hl. revert j st. induction Hl as [|a l Ha _ IH]; intros j st Hok.
  - simpl. split; [|tauto]. intros ?. split; [done|].
    by intros ?? ?%elem_of_nil.
  - destruct a as [|s0 rid0]; [done|].
    cbn [executeActions]. rewrite IH by (intros k ?; apply Hok; simpl; lia).
    rewrite (Hok j) by (simpl; lia). simpl.
    rewrite deleteRecord_elem_of. split.
    + intros [[? ?] Hrest]. split; [done|].
      intros s rid [[= -> ->]|?]%elem_of_cons; eauto.
    + intros [? Hall]. split_and!; [done| |].
      * apply (Hall s0). apply list_elem_of_here.
      * intros s rid ?. apply (Hall s). by apply list_elem_of_further.
Qed.

Section Execution.
Variable newId : list DNSRecord → string.
(** The provider never hands out the id of a record it holds. *)
Hypothesis newId_fresh : ∀ store, newId store ∉ record_id <$> store.

(** A run of successful assign actions appends one record per action, with
    the action's address and an id that no earlier record has. *)
Lemma executeActions_assigns oks j st l :
  Forall (λ a, is_assign a = true) l →
  (∀ k, j ≤ k < j + length l → oks k = true) →
  ∃ created,
    (executeActions newId oks j st l).2 = st.2 ++ created
    ∧ content <$> created = (λ a, ip (action_server a)) <$> l
    ∧ ∀ r, r ∈ created → record_id r ∉ record_id <$> st.2.
Proof using newId_fresh.
  intros Hl. revert j st. induction Hl as [|a l Ha _ IH]; intros j st Hok.
  - exists []. simpl. rewrite app_nil_r. split_and!; [done|done|].
    by intros ? ?%elem_of_nil.
  - destruct a as [s0|]; [|done].
    cbn [executeActions]. rewrite (Hok j) by (simpl; lia).
    destruct (IH (S j) (executeAction newId true st (assign s0)))
      as (created & Hrecs & Hcontent & Hids);
      [intros k ?; apply Hok; simpl; lia|].
    exists ({| record_id := newId st.2; content := ip s0 |} :: created).
    split_and!.
    + rewrite Hrecs. simpl. unfold createRecord. by rewrite <- app_assoc.
    + rewrite !fmap_cons. by rewrite Hcontent.
    + intros r [->|Hr]%elem_of_cons; [apply newId_fresh|].
      specialize (Hids r Hr). simpl in Hids. unfold createRecord in Hids.
      rewrite fmap_app, elem_of_app in Hids. tauto.
Qed.

End Execution.

(** ** A whole run: the published set *)

Section Cycle.
Variable localeCompare : string → string → Z.
Variable newId : list DNSRecord → string.
Hypothesis newId_fresh : ∀ store, newId store ∉ record_id <$> store.

(** After a run whose calls all succeed, the address of every server that
    is healthy and either not primary or without a healthy non-primary
    alternative is published. *)
Lemma keeper_published clock oks servers sh store sh1 batch s h1 :
  wf_state servers sh →
  NoDup (record_id <$> store) →
  planActions localeCompare clock servers sh store = Some (sh1, batch) →
  (∀ j, j < length batch → oks j = true) →
  s ∈ servers → sh1 !! ip s = Some h1 → isHealthy h1 = true →
  (isPrimary h1 = false ∨ (0 <? healthyNonPrimaryCount sh1)%nat = false) →
  ip s ∈ currentIPs (executeActions newId oks 0 (sh1, store) batch).2.
Proof using newId_fresh.
  intros Hwf Hnd Hplan Hok Hs Hh1 Hhealthy Hkeep.
  destruct (planActions_spec localeCompare clock servers sh store Hwf)
    as (sh1' & batch' & Hsync & Hplan' & (A & U & -> & HA & HU)
        & Hjust & Hassign & _).
  rewrite Hplan in Hplan'. injection Hplan' as <- ->.
  rewrite Forall_forall in Hjust.
  rewrite executeActions_app. simpl.
  destruct (executeActions_assigns newId newId_fresh oks 0 (sh1, store) A HA)
    as (created & Hrecs & Hcontent & Hids).
  { intros k ?. apply Hok. rewrite length_app. lia. }
  simpl in Hrecs, Hids.
  assert (Hdel : ∀ s' rid, unassign s' rid ∈ U →
    ∃ h' r', sh1 !! ip s' = Some h' ∧ r' ∈ store ∧ content r' = ip s'
             ∧ rid = record_id r'
             ∧ (isHealthy h' = false
                ∨ isPrimary h' = true
                  ∧ (0 <? healthyNonPrimaryCount sh1)%nat = true)).
  { intros s' rid Hin.
    destruct (Hjust (unassign s' rid)) as [(h' & r' & ? & Hr' & ? & Hwhy) _];
      [apply elem_of_app; by right|].
    apply findRecord_Some in Hr' as [? ?].
    exists h', r'. split_and!; try done.
    destruct Hwhy as [(_ & ? & _) | (_ & _ & ? & ?)]; auto. }
  assert (Hsurvive : ∀ r, r ∈ store ++ created →
    (∀ s' rid, unassign s' rid ∈ U → record_id r ≠ rid) →
    content r ∈ currentIPs
      (executeActions newId oks (length A)
         (executeActions newId oks 0 (sh1, store) A) U).2).
  { intros r Hr Hkept. unfold currentIPs.
    apply elem_of_list_to_set, list_elem_of_fmap_2.
    apply executeActions_unassigns; [done| |].
    - intros k ?. apply Hok. rewrite length_app. lia.
    - by rewrite Hrecs. }
  destruct (isAssigned h1) eqn:Hassigned.
  - (* already published: its record is not among the removed ones *)
    destruct (resync_server_lookup_inv _ _ _ _ _ _ Hsync Hs Hh1)
      as (h & Hh & ->).
    simpl in Hassigned. apply bool_decide_eq_true in Hassigned.
    unfold currentIPs in Hassigned.
    apply elem_of_list_to_set, list_elem_of_fmap in Hassigned
      as (r & Hc & Hr).
    rewrite Hc. apply Hsurvive; [apply elem_of_app; by left|].
    intros s' rid Hin Heq.
    destruct (Hdel _ _ Hin) as (h' & r' & Hh' & Hr' & Hc' & -> & Hwhy).
    assert (r = r') as <- by by eapply (NoDup_fmap_inj_on record_id).
    rewrite <- Hc', <- Hc, Hh1 in Hh'. injection Hh' as <-.
    simpl in *. destruct Hwhy as [?|[? ?]], Hkeep; congruence.
  - (* not published: the run creates its record, with a fresh id *)
    assert (assign s ∈ A) as Hin.
    { assert (assign s ∈ A ++ U) as [?|Hin]%elem_of_app; [|done|].
      - eapply Hassign; [done|done|]. by split_and!.
      - rewrite Forall_forall in HU. by specialize (HU _ Hin). }
    assert (ip s ∈ content <$> created) as (r & Hc & Hr)%list_elem_of_fmap.
    { rewrite Hcontent. by apply (list_elem_of_fmap_2 (λ a, ip (action_server a)) A (assign s)). }
    rewrite Hc. apply Hsurvive; [apply elem_of_app; by right|].
    intros s' rid Hin' Heq.
    destruct (Hdel _ _ Hin') as (h' & r' & _ & Hr' & _ & -> & _).
    apply (Hids r Hr). rewrite Heq. by apply list_elem_of_fmap_2.
Qed.

(** C1 (amended): a run returns, whether or not it could fetch the ground
    truth; if at least one configured server is healthy, every call of the
    batch succeeds, and the run fetched the ground truth or some record was
    already published, at least one address is published when the run
    ends. *)
Theorem published_floor clock oks servers sh store fetched :
  wf_state servers sh →
  NoDup (record_id <$> store) →
  (∃ s h, s ∈ servers ∧ sh !! ip s = Some h ∧ isHealthy h = true) →
  ∃ sh' store' batch,
    manageDNSRecords localeCompare newId clock oks servers sh store fetched
    = Some (sh', store', batch)
    ∧ ((∀ j, j < length batch → oks j = true) →
       fetched = true ∨ store ≠ [] →
       (1 ≤ size (currentIPs store'))%nat).
Proof using newId_fresh.
  intros Hwf Hnd (s & h & Hs & Hh & Hhealthy).
  destruct fetched.
  2:{ unfold manageDNSRecords. eexists _, _, _. split; [reflexivity|].
      intros _ [?|Hne]; [done|].
      destruct store as [|r store]; [done|].
      destruct (size (currentIPs (r :: store))) eqn:Hsize; [|lia].
      apply size_empty_iff in Hsize.
      assert (content r ∈ currentIPs (r :: store)) as Hk.
      { unfold currentIPs. apply elem_of_list_to_set.
        rewrite fmap_cons. apply list_elem_of_here. }
      apply Hsize in Hk. by apply elem_of_empty in Hk. }
  destruct (planActions_spec localeCompare clock servers sh store Hwf)
    as (sh1 & batch & Hsync & Hplan & _).
  unfold manageDNSRecords. rewrite Hplan. simpl.
  eexists _, _, _. split; [done|]. intros Hok _.
  pose proof (resync_same_vitals _ _ _ _ Hsync) as Hv.
  pose proof (same_vitals_wf _ _ _ Hv Hwf) as Hwf1.
  pose proof (resync_server_lookup _ _ _ _ _ _ Hsync Hs Hh) as Hh1.
  assert (∃ k, k ∈ currentIPs
                 (executeActions newId oks 0 (sh1, store) batch).2)
    as [k Hk].
  { destruct (0 <? healthyNonPrimaryCount sh1)%nat eqn:Hcount.
    - apply (healthyNonPrimaryCount_servers _ _ Hwf1) in Hcount
        as (s' & h' & Hs' & Hh' & ? & ?).
      exists (ip s').
      eapply (keeper_published clock oks servers sh store sh1 batch); eauto.
    - exists (ip s).
      eapply (keeper_published clock oks servers sh store sh1 batch); eauto. }
  destruct (size (currentIPs _)) eqn:Hsize; [|lia].
  apply size_empty_iff in Hsize. apply Hsize in Hk.
  by apply elem_of_empty in Hk.
Qed.

End Cycle.

(** C1 (as stated, refuted): alpha is the only configured server and is
    healthy, nothing is published, and the fetch of the records fails.  The
    run is skipped: it plans nothing, so every planned action has been
    applied, and the published set is still empty when the cycle ends. *)
Lemma skipped_cycle_publishes_nothing :
  (∃ h, lonely_health !! ip alpha = Some h ∧ isHealthy h = true)
  ∧ manageDNSRecords codepointCompare longId (λ _, t0) (λ _, true)
      [alpha] lonely_health [] false
    = Some (lonely_health, [], [])
  ∧ size (currentIPs []) = 0.
Proof.
  split_and!.
  - exists (healthRecord true false None). split; vm_compute; reflexivity.
  - reflexivity.
  - vm_compute. reflexivity.
Qed.

(** ** Running again *)

(** C7 (as stated, refuted): bravo is healthy and unpublished, charlie is
    unhealthy past the grace period and the only published server.  The
    first run assigns bravo and keeps charlie, whose record is the last one.
    Run again on the resulting health map and record set, at the same clock
    reading, reconciliation removes charlie's record: the second action list
    is not empty. *)
Lemma rerun_not_idempotent :
  ('(sh', store', batch) ←
     manageDNSRecords codepointCompare longId (λ _, t0 + 45000)%Z (λ _, true)
       [bravo; charlie] recovery_health [recordC] true;
   '(_, _, batch2) ←
     manageDNSRecords codepointCompare longId (λ _, t0 + 45000)%Z (λ _, true)
       [bravo; charlie] sh' store' true;
   Some (batch, batch2))
  = Some ([assign bravo], [unassign charlie (record_id recordC)]).
Proof. vm_compute. reflexivity. Qed.

Section Rerun.
Variable localeCompare : string → string → Z.
Variable newId : list DNSRecord → string.
Hypothesis newId_fresh : ∀ store, newId store ∉ record_id <$> store.

(** The records left by a run whose calls all succeeded: a fetched record
    that no unassign action of the batch names, or a record created for an
    assign action of the batch. *)
Lemma run_store_elem_of clock oks servers sh store sh1 batch r :
  wf_state servers sh →
  planActions localeCompare clock servers sh store = Some (sh1, batch) →
  (∀ j, j < length batch → oks j = true) →
  r ∈ (executeActions newId oks 0 (sh1, store) batch).2 →
  (∀ s rid, unassign s rid ∈ batch → record_id r ≠ rid)
  ∧ (r ∈ store ∨ ∃ s, assign s ∈ batch ∧ content r = ip s).
Proof using newId_fresh.
  intros Hwf Hplan Hok.
  destruct (planActions_spec localeCompare clock servers sh store Hwf)
    as (sh1' & batch' & _ & Hplan' & (A & U & -> & HA & HU) & _).
  rewrite Hplan in Hplan'. injection Hplan' as _ ->.
  rewrite executeActions_app. simpl.
  destruct (executeActions_assigns newId newId_fresh oks 0 (sh1, store) A HA)
    as (created & Hrecs & Hcontent & _).
  { intros k ?. apply Hok. rewrite length_app. lia. }
  simpl in Hrecs.
  intros Hr. apply executeActions_unassigns in Hr as [Hr Hkept]; [|done|].
  2:{ intros k ?. apply Hok. rewrite length_app. lia. }
  rewrite Hrecs in Hr. split.
  - intros s rid [Hin|Hin]%elem_of_app; [|by eapply Hkept].
    rewrite Forall_forall in HA. by specialize (HA _ Hin).
  - apply elem_of_app in Hr as [Hr|Hr]; [by left|right].
    assert (content r ∈ (λ a, ip (action_server a)) <$> A) as Hc
      by (rewrite <- Hcontent; by apply list_elem_of_fmap_2).
    apply list_elem_of_fmap in Hc as (a & Hc & Ha).
    rewrite Forall_forall in HA. pose proof (HA a Ha) as Hkind.
    destruct a as [s1|]; [|done].
    exists s1. split; [apply elem_of_app; by left|done].
Qed.

(** C7 (amended): after a run that fetched the ground truth and whose calls
    all succeeded, running again on the health map and the record set the
    run left, whether or not the second run can fetch, plans no assign
    action; and it plans nothing at all unless the first run held a removal
    back or a grace period ran out in between, that is, provided every
    published unhealthy server that the second run can remove (grace period
    over at one of its clock readings, at least two addresses published at
    its start) was removable in the first one (at least two addresses
    published at its start, grace period over at all its readings).  The
    provider's records have distinct ids and, for the second part, distinct
    contents. *)
Theorem rerun_idempotent clock oks clock2 oks2 fetched2 servers sh store :
  wf_state servers sh →
  NoDup (record_id <$> store) →
  ∃ sh' store' batch,
    manageDNSRecords localeCompare newId clock oks servers sh store true
    = Some (sh', store', batch)
    ∧ ((∀ j, j < length batch → oks j = true) →
       ∃ sh'' store'' batch2,
         manageDNSRecords localeCompare newId clock2 oks2 servers
           sh' store' fetched2
         = Some (sh'', store'', batch2)
         ∧ (∀ s, assign s ∉ batch2)
         ∧ (NoDup (content <$> store) →
            (∀ s h, s ∈ servers → sh !! ip s = Some h →
                    ip s ∈ currentIPs store → isHealthy h = false →
                    (∃ i, graceOver (clock2 i) h) →
                    (2 ≤ size (currentIPs store'))%nat →
                    removable clock store h) →
            batch2 = [])).
Proof using newId_fresh.
  intros Hwf Hnd.
  destruct (planActions_spec localeCompare clock servers sh store Hwf)
    as (sh1 & batch & Hsync & Hplan & _ & Hjust & _ & Hdemote).
  rewrite Forall_forall in Hjust.
  unfold manageDNSRecords at 1. rewrite Hplan. simpl.
  eexists _, _, _. split; [done|]. intros Hok.
  set (st' := executeActions newId oks 0 (sh1, store) batch).
  pose proof (resync_same_vitals _ _ _ _ Hsync) as Hv1.
  pose proof (executeActions_same_vitals newId oks 0 (sh1, store) batch)
    as Hv'. fold st' in Hv'. simpl in Hv'.
  assert (Hwf' : wf_state servers st'.1).
  { eapply same_vitals_wf; [exact Hv'|]. by eapply same_vitals_wf. }
  destruct fetched2.
  2:{ unfold manageDNSRecords. eexists _, _, _. split; [reflexivity|].
      split; [by intros s ?%elem_of_nil | done]. }
  destruct (planActions_spec localeCompare clock2 servers st'.1 st'.2 Hwf')
    as (sh2 & batch2 & Hsync2 & Hplan2 & _ & Hjust2 & _).
  pose proof (resync_same_vitals _ _ _ _ Hsync2) as Hv2.
  assert (Hcount : (0 <? healthyNonPrimaryCount sh1)%nat
                   = (0 <? healthyNonPrimaryCount sh2)%nat).
  { apply same_vitals_count. eapply same_vitals_trans; eauto. }
  unfold manageDNSRecords. rewrite Hplan2. simpl.
  eexists _, _, _. split; [done|].
  rewrite Forall_forall in Hjust2.
  assert (Hno : ∀ s, assign s ∉ batch2).
  { intros s Hin. destruct (Hjust2 _ Hin) as [Hj Hs]. simpl in Hj, Hs.
    destruct Hj as (h2 & Hh2 & Hhealthy & Hassigned & Hkeep).
    destruct (resync_server_lookup_inv _ _ _ _ _ _ Hsync2 Hs Hh2)
      as (h' & Hh' & ->).
    simpl in Hhealthy, Hassigned, Hkeep.
    apply bool_decide_eq_false in Hassigned. apply Hassigned.
    destruct (same_vitals_lookup _ _ _ _ (same_vitals_sym _ _ Hv') Hh')
      as (h1 & Hh1 & Hvit).
    unfold vitals in Hvit. injection Hvit as Hvh Hvp _.
    eapply (keeper_published localeCompare newId newId_fresh
              clock oks servers sh store sh1 batch s h1);
      [done|done|done|done|done|done|congruence|].
    rewrite Hcount. destruct Hkeep; [left; congruence | by right]. }
  split; [exact Hno|]. intros Hndc Hrem.
  destruct batch2 as [|[s|s rid] batch2]; [reflexivity| |]; exfalso.
  { eapply Hno, list_elem_of_here. }
  destruct (Hjust2 (unassign s rid) (list_elem_of_here _ _))
    as [(h2 & r2 & Hh2 & Hr2 & -> & Hwhy) Hs].
  simpl in Hs, Hh2.
  apply findRecord_Some in Hr2 as [Hr2in Hr2c].
  destruct (resync_server_lookup_inv _ _ _ _ _ _ Hsync2 Hs Hh2)
    as (h' & Hh' & ->).
  destruct (same_vitals_lookup _ _ _ _ (same_vitals_sym _ _ Hv') Hh')
    as (h1 & Hh1 & Hvit).
  unfold vitals in Hvit. injection Hvit as Hvh Hvp Hvt.
  destruct (run_store_elem_of clock oks servers sh store sh1 batch r2
              Hwf Hplan Hok Hr2in) as [Hkept [Hr2store|(s1 & Hin1 & Hc1)]].
  - (* a fetched record that the first run kept *)
    assert (Hpub : ip s ∈ currentIPs store).
    { unfold currentIPs. apply elem_of_list_to_set. rewrite <- Hr2c.
      by apply list_elem_of_fmap_2. }
    assert (Hfind : findRecord store (ip s) = Some r2).
    { destruct (findRecord_is_Some _ _ Hpub) as [r Hr]. rewrite Hr.
      apply findRecord_Some in Hr as [Hrin Hrc]. f_equal.
      eapply (NoDup_fmap_inj_on content); [exact Hndc|done|done|congruence]. }
    destruct (resync_server_lookup_inv _ _ _ _ _ _ Hsync Hs Hh1)
      as (h & Hh & ->).
    simpl in Hvh, Hvp, Hvt.
    destruct Hwhy as [(_ & Hdown & Hn2 & i & Hi) | (_ & Hup & Hprim & Hc2)];
      simpl in Hdown || simpl in Hup, Hprim.
    + (* its server is unhealthy and past the grace period *)
      simpl in Hi. rewrite <- Hvt in Hi.
      destruct (Hrem s h Hs Hh Hpub) as [Hn Hall];
        [congruence | by exists i; apply graceOver_iff | exact Hn2 |].
      apply (Hkept s (record_id r2)); [|reflexivity].
      eapply (planActions_expired localeCompare clock servers sh store
                sh1 batch s _ r2 Hplan Hs Hh1); simpl;
        [by apply bool_decide_eq_true|congruence|done| |done].
      intros j. apply graceOver_iff, Hall.
    + (* its server is healthy and primary, with an alternative *)
      assert (hasUnassignFor batch (ip s) = true) as Hex.
      { eapply (Hdemote s _ Hs Hh1). split_and!; simpl;
          [by apply bool_decide_eq_true|congruence|congruence|congruence]. }
      apply hasUnassignFor_true in Hex as (s' & rid & Hin & Heq).
      destruct (Hjust _ Hin) as [(h3 & r3 & _ & Hr3 & -> & _) _].
      rewrite Heq, Hfind in Hr3. injection Hr3 as <-.
      by apply (Hkept s' (record_id r2)).
  - (* a record that the first run created *)
    destruct (Hjust _ Hin1) as [(h3 & Hh3 & Hhealthy & _ & Hkeep) _].
    simpl in Hh3. rewrite <- Hc1, Hr2c, Hh1 in Hh3. injection Hh3 as <-.
    destruct Hwhy as [(_ & Hdown & _) | (_ & _ & Hprim & Hc2)];
      simpl in *; [congruence|].
    destruct Hkeep; congruence.
Qed.

End Rerun.

(** ** The examples' allocator is fresh *)

Lemma length_append (s1 s2 : string) :
  String.length (String.append s1 s2) = String.length s1 + String.length s2.
Proof. induction s1 as [|c s1 IH]; simpl; [done|]. by rewrite IH. Qed.

Lemma longId_longer store r :
  r ∈ store → String.length (record_id r) < String.length (longId store).
Proof.
  induction store as [|r0 store IH]; [by intros ?%elem_of_nil|].
  simpl. rewrite length_append. intros [->|Hin]%elem_of_cons.
  - assert (0 < String.length (longId store)); [|lia].
    clear. induction store as [|r1 store IH]; simpl; [lia|].
    rewrite length_append. lia.
  - specialize (IH Hin). lia.
Qed.

Lemma longId_fresh store : longId store ∉ record_id <$> store.
Proof.
  intros (r & Heq & Hin)%list_elem_of_fmap.
  apply longId_longer in Hin. rewrite Heq in Hin. lia.
Qed.

Lemma scenario1_wf : wf_state [charlie; alpha; bravo] scenario1_health.
Proof. unfold wf_state. vm_compute. reflexivity. Qed.

Lemma scenario1_store_NoDup : NoDup (record_id <$> [recordA; recordC]).
Proof. compute_done. Qed.

Lemma scenario1_contents_NoDup : NoDup (content <$> [recordA; recordC]).
Proof. compute_done. Qed.

Lemma scenario1_run :
  ∃ sh' store',
    manageDNSRecords codepointCompare longId (λ _, t0 + 45000)%Z (λ _, true)
      [charlie; alpha; bravo] scenario1_health [recordA; recordC] true
    = Some (sh', store',
            [assign bravo; unassign charlie (record_id recordC)]).
Proof. eexists _, _. vm_compute. reflexivity. Qed.

Lemma published_floor_witness :
  ∃ sh' store' batch,
    manageDNSRecords codepointCompare longId (λ _, t0 + 45000)%Z (λ _, true)
      [charlie; alpha; bravo] scenario1_health [recordA; recordC] true
    = Some (sh', store', batch)
    ∧ (1 ≤ size (currentIPs store'))%nat.
Proof.
  destruct (published_floor codepointCompare longId longId_fresh
              (λ _, t0 + 45000)%Z (λ _, true)
              [charlie; alpha; bravo] scenario1_health [recordA; recordC]
              true scenario1_wf scenario1_store_NoDup)
    as (sh' & store' & batch & Hrun & Hfloor).
  - exists alpha, (healthRecord true false None).
    split_and!; [|reflexivity|reflexivity].
    apply list_elem_of_further, list_elem_of_here.
  - exists sh', store', batch. split; [exact Hrun|].
    apply Hfloor; [intros j _; reflexivity | left; reflexivity].
Defined.

Lemma assigns_before_unassigns_witness :
  ∃ sh' store' batch,
    manageDNSRecords codepointCompare longId (λ _, t0 + 45000)%Z (λ _, true)
      [charlie; alpha; bravo] scenario1_health [recordA; recordC] true
    = Some (sh', store', batch)
    ∧ batch !! 0 = Some (assign bravo)
    ∧ batch !! 1 = Some (unassign charlie (record_id recordC))
    ∧ 0 < 1.
Proof.
  destruct scenario1_run as (sh' & store' & Hrun).
  exists sh', store', [assign bravo; unassign charlie (record_id recordC)].
  split_and!; [exact Hrun | reflexivity | reflexivity |].
  exact (assigns_before_unassigns codepointCompare longId
           (λ _, t0 + 45000)%Z (λ _, true)
           [charlie; alpha; bravo] scenario1_health [recordA; recordC] true
           sh' store' [assign bravo; unassign charlie (record_id recordC)]
           0 1 (assign bravo) (unassign charlie (record_id recordC))
           Hrun eq_refl eq_refl eq_refl eq_refl).
Defined.

Lemma recovery_wf : wf_state [bravo; charlie] recovery_health.
Proof. unfold wf_state. vm_compute. reflexivity. Qed.

Lemma recovery_store_NoDup : NoDup (record_id <$> [recordC]).
Proof. compute_done. Qed.

(** In scenario 1 two addresses are published and charlie, the only
    unhealthy server, is past its grace period at the reading of the run. *)
Lemma scenario1_removable s h :
  s ∈ [charlie; alpha; bravo] → scenario1_health !! ip s = Some h →
  ip s ∈ currentIPs [recordA; recordC] → isHealthy h = false →
  (∃ i : nat, graceOver (t0 + 45000) h) →
  removable (λ _, t0 + 45000)%Z [recordA; recordC] h.
Proof.
  intros [->|[->|[->|[]%elem_of_nil]%elem_of_cons]%elem_of_cons]%elem_of_cons
    Hl _ Hdown _; vm_compute in Hl; injection Hl as <-;
    try discriminate Hdown.
  split; [vm_compute; lia|]. intros _. left. exists t0.
  split; [reflexivity|]. unfold GRACE_PERIOD_MS, t0. lia.
Qed.

Lemma rerun_idempotent_witness :
  ∃ sh' store' batch,
    manageDNSRecords codepointCompare longId (λ _, t0 + 45000)%Z (λ _, true)
      [charlie; alpha; bravo] scenario1_health [recordA; recordC] true
    = Some (sh', store', batch)
    ∧ ∃ sh'' store'',
        manageDNSRecords codepointCompare longId (λ _, t0 + 45000)%Z
          (λ _, true) [charlie; alpha; bravo] sh' store' true
        = Some (sh'', store'', []).
Proof.
  destruct (rerun_idempotent codepointCompare longId longId_fresh
              (λ _, t0 + 45000)%Z (λ _, true) (λ _, t0 + 45000)%Z (λ _, true)
              true [charlie; alpha; bravo] scenario1_health [recordA; recordC]
              scenario1_wf scenario1_store_NoDup)
    as (sh' & store' & batch & Hrun & Hrerun).
  exists sh', store', batch. split; [exact Hrun|].
  destruct Hrerun as (sh'' & store'' & batch2 & Hrun2 & _ & Hempty);
    [intros j _; reflexivity|].
  exists sh'', store''. rewrite Hrun2.
  rewrite (Hempty scenario1_contents_NoDup
             (λ s h Hs Hl Hpub Hdown Hover _,
                scenario1_removable s h Hs Hl Hpub Hdown Hover)).
  reflexivity.
Defined.

(** The amended claim's conditions are needed.  A server that was within
    its grace period in the first run and is past it in the second is
    removed by the second run. *)
Example rerun_after_grace :
  ('(sh', store', batch) ←
     manageDNSRecords codepointCompare longId (λ _, t0 + 5000)%Z (λ _, true)
       [alpha; charlie] waning_health [recordA; recordC] true;
   '(_, _, batch2) ←
     manageDNSRecords codepointCompare longId (λ _, t0 + 45000)%Z (λ _, true)
       [alpha; charlie] sh' store' true;
   Some (batch, batch2))
  = Some ([], [unassign charlie (record_id recordC)]).
Proof. vm_compute. reflexivity. Qed.

(** A first run that could not fetch the records does nothing, and the
    second run does its work. *)
Example rerun_after_skipped_run :
  ('(sh', store', batch) ←
     manageDNSRecords codepointCompare longId (λ _, t0 + 45000)%Z (λ _, true)
       [charlie; alpha; bravo] scenario1_health [recordA; recordC] false;
   '(_, _, batch2) ←
     manageDNSRecords codepointCompare longId (λ _, t0 + 45000)%Z (λ _, true)
       [charlie; alpha; bravo] sh' store' true;
   Some (batch, batch2))
  = Some ([], [assign bravo; unassign charlie (record_id recordC)]).
Proof. vm_compute. reflexivity. Qed.

(** ** The retrying client *)

Module CloudflareFacts.
Import Cloudflare.

Lemma isRetryable_spec error :
  isRetryable error = true ↔
  response_status error = Some 429%Z
  ∨ response_error_code error = Some 10013%Z
  ∨ code error = Some "ECONNRESET"
  ∨ code error = Some "ETIMEDOUT"
  ∨ ∃ s, response_status error = Some s ∧ (500 ≤ s < 600)%Z.
Proof.
  unfold isRetryable, isRateLimit, isServerError.
  rewrite !orb_true_iff, !bool_decide_eq_true.
  destruct (response_status error) as [s|].
  - rewrite andb_true_iff, Z.leb_le, Z.ltb_lt. split.
    + intros [[[[?|?]|?]|?]|?]; [tauto..|].
      do 4 right. exists s. done.
    + intros [?|[?|[?|[?|(s' & Hs & ?)]]]]; [tauto..|].
      injection Hs as <-. right. lia.
  - split.
    + intros [[[[?|?]|?]|?]|?]; [tauto..|discriminate].
    + intros [?|[?|[?|[?|(s' & Hs & ?)]]]]; [tauto..|discriminate].
Qed.

Lemma requests_app l1 l2 : requests (l1 ++ l2) = requests l1 ++ requests l2.
Proof. apply omap_app. Qed.

Lemma backoffs_app l1 l2 : backoffs (l1 ++ l2) = backoffs l1 ++ backoffs l2.
Proof. apply omap_app. Qed.

Lemma throttle_requests this now : requests (throttle this now) = [].
Proof. unfold throttle. by case_match. Qed.

Lemma throttle_backoffs this now : backoffs (throttle this now) = [].
Proof. unfold throttle. by case_match. Qed.

Lemma retryTrace_requests delays attempt k :
  k ≤ length delays →
  requests (retryTrace delays attempt k) = seq attempt (S k).
Proof.
  revert delays attempt. induction k as [|k IH]; intros delays attempt Hk.
  - by destruct delays.
  - destruct delays as [|d delays]; [simpl in Hk; lia|].
    simpl in *. rewrite IH by lia. done.
Qed.

Lemma retryTrace_backoffs delays attempt k :
  k ≤ length delays →
  backoffs (retryTrace delays attempt k) = take k delays.
Proof.
  revert delays attempt. induction k as [|k IH]; intros delays attempt Hk.
  - by destruct delays.
  - destruct delays as [|d delays]; [simpl in Hk; lia|].
    simpl in *. rewrite IH by lia. done.
Qed.

Section Loop.
Context {A : Type}.
Variable requestFn : nat → Z * Outcome A.
Variable interval : Z.
Variable delays : list Z.
Hypothesis durations : ∀ i, (0 ≤ (requestFn i).1)%Z.
Hypothesis delays_cover : Forall (λ d, (interval ≤ d)%Z) delays.

(** The loop from iteration [attempt] on stops at the first attempt [k]
    that succeeds, fails without being retryable, or is the last one; it
    ends as that attempt does, and between two attempts it waits for the
    back-off delay and for nothing else. *)
Lemma attemptLoop_spec fuel :
  ∀ attempt this now trace,
    minInterval this = interval → retryDelays this = delays →
    attempt + fuel = S (length delays) → 0 < fuel →
    ∃ k, attempt ≤ k ≤ length delays
         ∧ (∀ i, attempt ≤ i < k → retried (requestFn i).2)
         ∧ (k = length delays ∨ final (requestFn k).2)
         ∧ (attemptLoop requestFn fuel (length delays) attempt
              this now trace).2
           = settle (requestFn k).2
         ∧ (attemptLoop requestFn fuel (length delays) attempt
              this now trace).1.2
           = trace ++ throttle this now
             ++ retryTrace (drop attempt delays) attempt (k - attempt).
Proof using durations delays_cover.
  induction fuel as [|fuel IH]; intros attempt this now trace Hi Hd Hf Hpos;
    [lia|].
  cbn [attemptLoop].
  set (now1 := if (now - lastRequest this <? minInterval this)%Z
               then (now + (minInterval this - (now - lastRequest this)))%Z
               else now).
  set (trace1 := if (now - lastRequest this <? minInterval this)%Z
                 then trace ++ [Throttle (minInterval this
                                          - (now - lastRequest this))]
                 else trace).
  assert (Htrace1 : trace1 = trace ++ throttle this now).
  { unfold trace1, throttle. case_match; [done | by rewrite app_nil_r]. }
  replace (if (now - lastRequest this <? minInterval this)%Z
           then ((now + (minInterval this - (now - lastRequest this)))%Z,
                 trace ++ [Throttle (minInterval this
                                     - (now - lastRequest this))])
           else (now, trace))
    with (now1, trace1) by (unfold now1, trace1; by case_match).
  cbn beta iota.
  pose proof (durations attempt) as Hdur.
  destruct (requestFn attempt) as [duration outcome] eqn:Hreq.
  simpl in Hdur.
  assert (Hdrop0 : ∀ l, retryTrace l attempt 0 = [Request attempt])
    by (by intros []).
  destruct outcome as [result|error].
  - exists attempt. rewrite Hreq, Nat.sub_diag, Hdrop0, Htrace1. simpl.
    split_and!; [lia|lia|intros; lia| |done|by rewrite <- app_assoc].
    right. left. eauto.
  - destruct (attempt =? length delays) eqn:Hlast; simpl.
    { apply Nat.eqb_eq in Hlast.
      exists attempt. rewrite Hreq, Nat.sub_diag, Hdrop0, Htrace1. simpl.
      split_and!; [lia|lia|intros; lia|by left|done
                  |by rewrite <- app_assoc]. }
    apply Nat.eqb_neq in Hlast.
    destruct (isRetryable error) eqn:Hretry; simpl.
    2:{ exists attempt. rewrite Hreq, Nat.sub_diag, Hdrop0, Htrace1. simpl.
        split_and!; [lia|lia|intros; lia| |done|by rewrite <- app_assoc].
        right. right. eauto. }
    assert (attempt < length delays) as Hlt by lia.
    destruct (lookup_lt_is_Some_2 delays attempt Hlt) as [d Hdl].
    rewrite Hd, Hdl. simpl.
    assert (interval ≤ d)%Z as Hcover.
    { rewrite Forall_forall in delays_cover. apply delays_cover.
      by eapply list_elem_of_lookup_2. }
    edestruct (IH (S attempt)
      {| lastRequest := now1; minInterval := minInterval this;
         retryDelays := delays |}
      (now1 + duration + d)%Z
      ((trace1 ++ [Request attempt]) ++ [Backoff d]))
      as (k & Hk & Hbefore & Hend & Hres & Htr);
      [done|done|lia|lia|].
    exists k. rewrite Hres, Htr.
    split_and!; [lia|lia| |done|done|].
    + intros i Hik. destruct (decide (i = attempt)) as [->|].
      * rewrite Hreq. simpl. exists error. done.
      * apply Hbefore. lia.
    + unfold throttle at 1. simpl.
      replace (now1 + duration + d - now1 <? minInterval this)%Z
        with false by (symmetry; apply Z.ltb_ge; lia).
      rewrite (drop_S _ _ _ Hdl), Htrace1.
      replace (k - attempt) with (S (k - S attempt)) by lia.
      simpl. by rewrite <- !app_assoc.
Qed.

End Loop.

(** C8: a call makes attempts [0..k] for some [k ≤ 4], so at most five.
    Every attempt before the [k]-th failed with a retryable error; the
    [k]-th is the fifth attempt, or a success, or a failure that is not
    retryable.  The call ends as the [k]-th attempt does: it returns its
    result or throws its error.  Apart from one possible wait of the rate
    limiter before the first attempt, the only waits are the back-off
    delays 1s, 2s, 4s, 8s, one before each retry and none after the last
    attempt.  An error is retryable exactly when its status is 429, its
    provider error code is 10013, its code is ECONNRESET or ETIMEDOUT, or
    its status is 5xx. *)
Theorem makeRequest_retry {A} (requestFn : nat → Z * Outcome A) this now :
  minInterval this = 1000%Z →
  retryDelays this = [1000; 2000; 4000; 8000]%Z →
  (∀ i, (0 ≤ (requestFn i).1)%Z) →
  (∃ k, k ≤ 4
        ∧ (∀ i, i < k → retried (requestFn i).2)
        ∧ (k = 4 ∨ final (requestFn k).2)
        ∧ (makeRequest requestFn this now).2 = settle (requestFn k).2
        ∧ (makeRequest requestFn this now).1.2
          = throttle this now
            ++ retryTrace [1000; 2000; 4000; 8000]%Z 0 k
        ∧ requests (makeRequest requestFn this now).1.2 = seq 0 (S k)
        ∧ backoffs (makeRequest requestFn this now).1.2
          = take k [1000; 2000; 4000; 8000]%Z)
  ∧ (∀ error,
       isRetryable error = true ↔
       response_status error = Some 429%Z
       ∨ response_error_code error = Some 10013%Z
       ∨ code error = Some "ECONNRESET"
       ∨ code error = Some "ETIMEDOUT"
       ∨ ∃ s, response_status error = Some s ∧ (500 ≤ s < 600)%Z).
Proof.
  intros Hi Hd Hdur. split; [|apply isRetryable_spec].
  unfold makeRequest. rewrite Hd.
  destruct (attemptLoop_spec requestFn 1000%Z [1000; 2000; 4000; 8000]%Z
              Hdur ltac:(repeat constructor; lia)
              (S (length [1000; 2000; 4000; 8000]%Z)) 0 this now [] Hi Hd
              eq_refl ltac:(lia))
    as (k & Hk & Hbefore & Hend & Hres & Htr).
  simpl in Hk, Hend. rewrite Nat.sub_0_r, drop_0, app_nil_l in Htr.
  exists k. rewrite Hres, Htr.
  split_and!; [lia|intros; apply Hbefore; lia|done|done|done| |].
  - rewrite requests_app, throttle_requests.
    apply retryTrace_requests. simpl; lia.
  - rewrite backoffs_app, throttle_backoffs.
    apply retryTrace_backoffs. simpl; lia.
Qed.

Lemma flakyRequest_durations i : (0 ≤ (flakyRequest i).1)%Z.
Proof. simpl. lia. Qed.

Lemma makeRequest_retry_witness :
  ∃ k, k ≤ 4
       ∧ (makeRequest flakyRequest newCloudflareAPI t0).2
         = settle (flakyRequest k).2
       ∧ backoffs (makeRequest flakyRequest newCloudflareAPI t0).1.2
         = take k [1000; 2000; 4000; 8000]%Z.
Proof.
  destruct (makeRequest_retry flakyRequest newCloudflareAPI t0
              eq_refl eq_refl flakyRequest_durations)
    as [(k & Hk & _ & _ & Hres & _ & _ & Hback) _].
  exists k. split_and!; [exact Hk | exact Hres | exact Hback].
Defined.

(** The specification's retry scenario: four rate-limit failures, then a
    success; the waits between the attempts are 1s, 2s, 4s, 8s. *)
Example makeRequest_fifth_attempt :
  (makeRequest flakyRequest newCloudflareAPI t0).2 = Return 4
  ∧ (makeRequest flakyRequest newCloudflareAPI t0).1.2
    = [Request 0; Backoff 1000; Request 1; Backoff 2000; Request 2;
       Backoff 4000; Request 3; Backoff 8000; Request 4].
Proof. split; vm_compute; reflexivity. Qed.

(** A 404 is thrown at once: one attempt, no wait. *)
Example makeRequest_not_found :
  (makeRequest (λ _, (120%Z, @Rejected nat notFound)) newCloudflareAPI t0).2
  = Throw notFound
  ∧ (makeRequest (λ _, (120%Z, @Rejected nat notFound))
       newCloudflareAPI t0).1.2
    = [Request 0].
Proof. split; vm_compute; reflexivity. Qed.

(** Five retryable failures: the fifth error is thrown. *)
Example makeRequest_exhausted :
  (makeRequest (λ _, (120%Z, @Rejected nat rateLimited)) newCloudflareAPI t0).2
  = Throw rateLimited
  ∧ requests (makeRequest (λ _, (120%Z, @Rejected nat rateLimited))
                newCloudflareAPI t0).1.2
    = [0; 1; 2; 3; 4].
Proof. split; vm_compute; reflexivity. Qed.

End CloudflareFacts.

(** ** Witnesses for the probe and the first cycle *)

Lemma checkHealth_classification_witness :
  probe_isHealthy
    (checkHealth
       (Resolved {| status := 200;
                    data := JsObject [("isMongoPrimary", JsBool true)] |}))
  = true
  ∧ probe_isPrimary
      (checkHealth
         (Resolved {| status := 200;
                      data := JsObject [("isMongoPrimary", JsBool true)] |}))
    = true.
Proof.
  destruct checkHealth_classification as [H _].
  destruct (H {| status := 200;
                 data := JsObject [("isMongoPrimary", JsBool true)] |})
    as (Hhealthy & Hprimary & _).
  split; [apply Hhealthy | apply Hprimary]; reflexivity.
Defined.

Lemma firstCycle_states :
  ∃ sh1 sh2,
    updateAll (λ _, t0) 0 (initServerHealth [alpha; charlie]) firstCycle_results
    = Some sh1
    ∧ resync (currentIPs [recordA; recordC]) [alpha; charlie] sh1 = Some sh2.
Proof.
  eexists _, _. split; [vm_compute; reflexivity|]. vm_compute. reflexivity.
Qed.

Lemma firstCycle_charlie_unhealthy s r :
  (s, r) ∈ firstCycle_results → ip s = ip charlie → probe_isHealthy r = false.
Proof.
  intros [[= -> ->]|[[= -> ->]|[]%elem_of_nil]%elem_of_cons]%elem_of_cons;
    [discriminate | reflexivity].
Qed.

Lemma shouldUnassignIP_unhealthy_since_start_witness :
  ∃ sh2,
    shouldUnassignIP (t0 + 1000) sh2 charlie
      (size (currentIPs [recordA; recordC]))
    = Some true.
Proof.
  destruct firstCycle_states as (sh1 & sh2 & Hupdate & Hsync).
  exists sh2.
  refine (proj2 (shouldUnassignIP_unhealthy_since_start
                   [alpha; charlie] (λ _, t0) firstCycle_results sh1
                   [recordA; recordC] sh2 charlie (t0 + 1000)%Z
                   _ Hupdate firstCycle_charlie_unhealthy Hsync _ _ _)).
  - apply list_elem_of_further, list_elem_of_here.
  - compute_done.
  - vm_compute. lia.
  - unfold GRACE_PERIOD_MS, t0. lia.
Defined.

(** ** The specification's scenarios, run *)

(** Scenario 1: assign bravo, then unassign charlie; two addresses stay
    published. *)
Example scenario1_plan :
  snd <$> planActions codepointCompare (λ _, t0 + 45000)%Z
            [charlie; alpha; bravo] scenario1_health [recordA; recordC]
  = Some [assign bravo; unassign charlie (record_id recordC)].
Proof. vm_compute. reflexivity. Qed.

(** Scenario 2: the primary server is the only healthy one and is assigned. *)
Example scenario2_plan :
  snd <$> planActions codepointCompare (λ _, t0 + 45000)%Z
            [alpha; charlie] scenario2_health []
  = Some [assign alpha].
Proof. vm_compute. reflexivity. Qed.

(** Scenario 3: bravo is assigned and the primary alpha is unassigned in the
    same batch. *)
Example scenario3_plan :
  snd <$> planActions codepointCompare (λ _, t0 + 45000)%Z
            [alpha; bravo] scenario3_health [recordA]
  = Some [assign bravo; unassign alpha (record_id recordA)].
Proof. vm_compute. reflexivity. Qed.

(** The count of published addresses is read once, before the loop: when no
    server is healthy and two published servers are both past the grace
    period, both records are removed in one run. *)
Example blackout_run :
  (λ r, (r.1.2, r.2)) <$>
    manageDNSRecords codepointCompare longId (λ _, t0 + 45000)%Z (λ _, true)
      [alpha; charlie] blackout_health [recordA; recordC] true
  = Some ([], [unassign alpha (record_id recordA);
               unassign charlie (record_id recordC)]).
Proof. vm_compute. reflexivity. Qed.

(** The same happens in the first cycle of a process started during an
    outage: no server has been healthy yet, every [lastUnhealthyTime] is
    [null] and counts as time 0, so no grace period is waited for. *)
Example outage_since_start :
  (λ r, (r.1.2, r.2)) <$>
    manageDNSRecords codepointCompare longId (λ _, t0) (λ _, true)
      [alpha; charlie] (initServerHealth [alpha; charlie])
      [recordA; recordC] true
  = Some ([], [unassign alpha (record_id recordA);
               unassign charlie (record_id recordC)]).
Proof. vm_compute. reflexivity. Qed.

(** * Further properties of the code *)

(** ** The plan *)

Lemma same_but_assigned_resync ips servers sh sh' sh1 :
  wf_state servers sh → same_but_assigned sh sh' →
  resync ips servers sh = Some sh1 → resync ips servers sh' = Some sh1.
Proof.
  intros Hwf Hsame Hr.
  assert (Hwf' : wf_state servers sh').
  { apply wf_state_iff. intros k. etrans; [|exact (proj1 (wf_state_iff _ _) Hwf k)].
    specialize (Hsame k).
    destruct (sh !! k), (sh' !! k); simplify_eq/=; split; intros [? ?]; eauto. }
  destruct (resync_is_Some ips servers sh') as [sh1' Hr'];
    [intros; by eapply wf_state_lookup|].
  rewrite Hr'. f_equal. apply map_eq. intros k.
  rewrite (resync_lookup _ _ _ _ k Hr), (resync_lookup _ _ _ _ k Hr').
  specialize (Hsame k). case_bool_decide as Hk.
  - destruct (sh !! k) as [h|], (sh' !! k) as [h'|]; simplify_eq/=; [|done].
    f_equal. destruct h, h'. unfold set_isAssigned in *. simpl in *.
    congruence.
  - destruct (sh !! k) as [h|] eqn:E; [|by destruct (sh' !! k)].
    destruct Hk. pose proof (proj1 (wf_state_iff _ _) Hwf) as Hdom.
    destruct (proj1 (Hdom k)) as (s & ? & <-); [by rewrite E|].
    by apply list_elem_of_fmap_2.
Qed.

Section PlanFacts.
Variable localeCompare : string → string → Z.

(** The plan does not read the [isAssigned] flags that earlier runs left:
    two health maps that differ only in these flags get the same plan. *)
Theorem plan_ignores_stale_flags clock servers sh sh' currentRecords :
  wf_state servers sh → same_but_assigned sh sh' →
  planActions localeCompare clock servers sh' currentRecords
  = planActions localeCompare clock servers sh currentRecords.
Proof.
  intros Hwf Hsame. unfold planActions.
  destruct (resync_is_Some (currentIPs currentRecords) servers sh)
    as [sh1 Hr]; [intros; by eapply wf_state_lookup|].
  by rewrite Hr, (same_but_assigned_resync _ _ _ _ _ Hwf Hsame Hr).
Qed.

(** While every clock reading of the planning loop is within the grace
    period of an unhealthy server, the batch holds no unassign action for
    its address. *)
Theorem plan_respects_grace clock servers sh currentRecords server h :
  wf_state servers sh → server ∈ servers → sh !! ip server = Some h →
  isHealthy h = false →
  (∀ i, (clock i < toNumber (lastUnhealthyTime h) + GRACE_PERIOD_MS)%Z) →
  ∃ sh1 batch,
    planActions localeCompare clock servers sh currentRecords
    = Some (sh1, batch)
    ∧ ∀ s' recordId, unassign s' recordId ∈ batch → ip s' ≠ ip server.
Proof.
  intros Hwf Hs Hh Hdown Hgrace.
  destruct (planActions_spec localeCompare clock servers sh currentRecords Hwf)
    as (sh1 & batch & Hsync & Hplan & _ & Hjust & _ & _).
  rewrite Forall_forall in Hjust.
  pose proof (resync_server_lookup _ _ _ _ _ _ Hsync Hs Hh) as Hh1.
  exists sh1, batch. split; [done|]. intros s' rid Hin Heq.
  destruct (Hjust _ Hin) as [(h1 & r & Hl & _ & _ & Hwhy) _].
  simpl in Hl. rewrite Heq, Hh1 in Hl. injection Hl as <-.
  destruct Hwhy as [(_ & _ & _ & i & Hi) | (_ & Hup & _)].
  - simpl in Hi. specialize (Hgrace i). lia.
  - simpl in Hup. congruence.
Qed.

(** A batch never holds an assign and an unassign action for the same
    address. *)
Theorem plan_no_conflict clock servers sh currentRecords :
  wf_state servers sh →
  ∃ sh1 batch,
    planActions localeCompare clock servers sh currentRecords
    = Some (sh1, batch)
    ∧ ∀ s1 s2 recordId,
        assign s1 ∈ batch → unassign s2 recordId ∈ batch → ip s1 ≠ ip s2.
Proof.
  intros Hwf.
  destruct (planActions_spec localeCompare clock servers sh currentRecords Hwf)
    as (sh1 & batch & Hsync & Hplan & _ & Hjust & _ & _).
  rewrite Forall_forall in Hjust.
  exists sh1, batch. split; [done|]. intros s1 s2 rid H1 H2 Heq.
  destruct (Hjust _ H1) as [(h1 & Hl1 & _ & Hfree & _) _].
  destruct (Hjust _ H2) as [(h2 & r & Hl2 & _ & _ & Hwhy) _].
  simpl in Hl1, Hl2. rewrite Heq, Hl2 in Hl1. injection Hl1 as <-.
  destruct Hwhy as [(? & _) | (? & _)]; congruence.
Qed.

(** Once the published set is what the planner aims at, the plan is empty. *)
Theorem converged_plan_empty clock servers sh currentRecords :
  wf_state servers sh → converged servers sh currentRecords →
  ∃ sh1,
    planActions localeCompare clock servers sh currentRecords
    = Some (sh1, []).
Proof.
  intros Hwf Hconv.
  destruct (planActions_spec localeCompare clock servers sh currentRecords Hwf)
    as (sh1 & batch & Hsync & Hplan & _ & Hjust & _ & _).
  rewrite Forall_forall in Hjust.
  pose proof (same_vitals_count _ _ (resync_same_vitals _ _ _ _ Hsync)) as Hc.
  exists sh1. rewrite Hplan. do 2 f_equal.
  destruct batch as [|a batch]; [done|exfalso].
  destruct (Hjust a (list_elem_of_here _ _)) as [Hwhy Hs].
  destruct a as [s|s rid]; simpl in Hwhy, Hs.
  - destruct Hwhy as (h1 & Hl & Hup & Hfree & Hkeep).
    destruct (resync_server_lookup_inv _ _ _ _ _ _ Hsync Hs Hl) as (h & Hh & ->).
    simpl in *. apply bool_decide_eq_false in Hfree. apply Hfree.
    apply (Hconv s h Hs Hh). rewrite Hc. done.
  - destruct Hwhy as (h1 & r & Hl & _ & _ & Hwhy).
    destruct (resync_server_lookup_inv _ _ _ _ _ _ Hsync Hs Hl) as (h & Hh & ->).
    assert (Hpub : ip s ∈ currentIPs currentRecords).
    { destruct Hwhy as [(Ha & _) | (Ha & _)]; simpl in Ha;
        by apply bool_decide_eq_true in Ha. }
    apply (Hconv s h Hs Hh) in Hpub as [Hup Hkeep]. rewrite Hc in Hkeep.
    destruct Hwhy as [(_ & Hdown & _) | (_ & _ & Hp & Hcount)]; simpl in *.
    + congruence.
    + destruct Hkeep; congruence.
Qed.

End PlanFacts.

(** ** The executor *)


(** Whatever calls fail, a record stays unless an unassign action of the
    batch names its id. *)
Lemma executeActions_keeps newId oks j st l r :
  r ∈ st.2 →
  (∀ s recordId, unassign s recordId ∈ l → record_id r ≠ recordId) →
  r ∈ (executeActions newId oks j st l).2.
Proof.
  revert j st. induction l as [|a l IH]; intros j st Hr Hkeep; simpl; [done|].
  apply IH.
  - unfold executeAction. destruct (oks j); [|done].
    destruct a as [s|s rid]; simpl.
    + unfold createRecord. apply elem_of_app. by left.
    + apply deleteRecord_elem_of. split; [done|].
      apply (Hkeep s). apply list_elem_of_here.
  - intros s rid Hin. apply (Hkeep s). by apply list_elem_of_further.
Qed.

Section RunFacts.
Variable localeCompare : string → string → Z.
Variable newId : list DNSRecord → string.

(** What an unassign action of the batch stands for. *)
Lemma unassign_cause clock servers sh store sh1 batch s recordId :
  wf_state servers sh →
  planActions localeCompare clock servers sh store = Some (sh1, batch) →
  unassign s recordId ∈ batch →
  ∃ h r, s ∈ servers ∧ sh !! ip s = Some h
         ∧ r ∈ store ∧ content r = ip s ∧ recordId = record_id r
         ∧ (isHealthy h = false
            ∧ (2 ≤ size (currentIPs store))%nat
            ∧ (∃ i, (GRACE_PERIOD_MS
                     ≤ clock i - toNumber (lastUnhealthyTime h))%Z)
            ∨ isHealthy h = true ∧ isPrimary h = true
              ∧ ∃ s' h', s' ∈ servers ∧ sh !! ip s' = Some h'
                         ∧ isHealthy h' = true ∧ isPrimary h' = false).
Proof.
  intros Hwf Hplan Hin.
  destruct (planActions_spec localeCompare clock servers sh store Hwf)
    as (sh1' & batch' & Hsync & Hplan' & _ & Hjust & _ & _).
  rewrite Hplan in Hplan'. injection Hplan' as <- <-.
  rewrite Forall_forall in Hjust.
  pose proof (same_vitals_count_servers _ _ _ Hwf
                (resync_same_vitals _ _ _ _ Hsync)) as Hc.
  destruct (Hjust _ Hin) as [(h1 & r & Hl & Hr & -> & Hwhy) Hs].
  simpl in Hs, Hl.
  destruct (resync_server_lookup_inv _ _ _ _ _ _ Hsync Hs Hl) as (h & Hh & ->).
  apply findRecord_Some in Hr as [Hrin Hrc].
  exists h, r. split_and!; [done..|].
  destruct Hwhy as [(_ & Hdown & Hn & Hi) | (_ & Hup & Hp & Hcount)];
    simpl in *; [left; done|right].
  split_and!; [done|done|]. by apply Hc.
Qed.

(** A run removes a record only for cause, whether or not it could fetch
    the records and whatever calls fail: the record carries the address of a
    configured server that is unhealthy with its grace period over at a
    clock reading of the run while at least two addresses are published, or
    that is healthy and primary while a healthy non-primary server exists.
    The grace period is over when the server turned unhealthy at least 30s
    before the reading, and also when it has never been healthy since the
    process started (a [null] [lastUnhealthyTime] counts as time 0).
    Records of other addresses and of healthy non-primary servers stay. *)
Theorem record_removed_for_cause clock oks servers sh store fetched r :
  wf_state servers sh →
  NoDup (record_id <$> store) →
  r ∈ store →
  ∃ sh' store' batch,
    manageDNSRecords localeCompare newId clock oks servers sh store fetched
    = Some (sh', store', batch)
    ∧ (r ∉ store' →
       ∃ s h, s ∈ servers ∧ sh !! ip s = Some h ∧ content r = ip s
              ∧ (isHealthy h = false
                 ∧ (2 ≤ size (currentIPs store))%nat
                 ∧ (∃ i, graceOver (clock i) h)
                 ∨ isHealthy h = true ∧ isPrimary h = true
                   ∧ ∃ s' h', s' ∈ servers ∧ sh !! ip s' = Some h'
                              ∧ isHealthy h' = true ∧ isPrimary h' = false)).
Proof.
  intros Hwf Hnd Hr.
  destruct fetched.
  2:{ unfold manageDNSRecords. eexists _, _, _. split; [reflexivity|].
      intros Hgone. by destruct Hgone. }
  destruct (planActions_spec localeCompare clock servers sh store Hwf)
    as (sh1 & batch & Hsync & Hplan & _).
  unfold manageDNSRecords. rewrite Hplan. simpl.
  eexists _, _, _. split; [done|]. intros Hgone.
  destruct (existsb (λ a, match a with
                          | unassign _ rid => String.eqb rid (record_id r)
                          | assign _ => false
                          end) batch) eqn:Hex.
  - apply existsb_exists in Hex as ([|s rid] & Hin%list_elem_of_In & Heq);
      [done|].
    apply String.eqb_eq in Heq as ->.
    destruct (unassign_cause _ _ _ _ _ _ _ _ Hwf Hplan Hin)
      as (h & r' & Hs & Hh & Hr' & Hc & Hid & Hwhy).
    assert (r = r') as <- by by eapply (NoDup_fmap_inj_on record_id).
    exists s, h. split_and!; [done..|].
    destruct Hwhy as [(Hdown & Hn & i & Hi)|Hdemoted]; [left|by right].
    split_and!; [done|done|]. exists i. by apply graceOver_iff.
  - destruct Hgone. apply executeActions_keeps; [done|].
    intros s rid Hin <-.
    assert (existsb (λ a, match a with
                          | unassign _ rid => String.eqb rid (record_id r)
                          | assign _ => false
                          end) batch = true) as Hyes; [|congruence].
    apply existsb_exists. exists (unassign s (record_id r)).
    split; [by apply list_elem_of_In | apply String.eqb_refl].
Qed.

Hypothesis newId_fresh : ∀ store, newId store ∉ record_id <$> store.

(** After a run whose calls all succeed, the address of every server that
    is healthy and not primary is published, and so is the address of a
    healthy primary server when no healthy non-primary server exists. *)
Theorem healthy_servers_published clock oks servers sh store server h :
  wf_state servers sh →
  NoDup (record_id <$> store) →
  server ∈ servers → sh !! ip server = Some h → isHealthy h = true →
  (isPrimary h = false
   ∨ ¬ ∃ s' h', s' ∈ servers ∧ sh !! ip s' = Some h'
                ∧ isHealthy h' = true ∧ isPrimary h' = false) →
  ∃ sh' store' batch,
    manageDNSRecords localeCompare newId clock oks servers sh store true
    = Some (sh', store', batch)
    ∧ ((∀ j, j < length batch → oks j = true) →
       ip server ∈ currentIPs store').
Proof using newId_fresh.
  intros Hwf Hnd Hs Hh Hup Hkeep.
  destruct (planActions_spec localeCompare clock servers sh store Hwf)
    as (sh1 & batch & Hsync & Hplan & _).
  unfold manageDNSRecords. rewrite Hplan. simpl.
  eexists _, _, _. split; [done|]. intros Hok.
  pose proof (same_vitals_count_servers _ _ _ Hwf
                (resync_same_vitals _ _ _ _ Hsync)) as Hc.
  eapply (keeper_published localeCompare newId newId_fresh
            clock oks servers sh store sh1 batch server);
    [done|done|done|done|done
    |by eapply resync_server_lookup|done|].
  simpl. destruct Hkeep as [?|Hnone]; [by left|right].
  apply not_true_is_false. intros ?%Hc. done.
Qed.

End RunFacts.

(** ** The health store: [updateServerHealth] *)

Lemma updateServerHealth_lookup now sh server r sh' k :
  updateServerHealth now sh server r = Some sh' →
  k ≠ ip server → sh' !! k = sh !! k.
Proof.
  unfold updateServerHealth. intros Hu Hne.
  destruct (sh !! ip server) as [h|]; simplify_eq/=.
  repeat case_match; simplify_eq; by rewrite lookup_insert_ne.
Qed.

Lemma updateServerHealth_entry now sh server r sh' h :
  updateServerHealth now sh server r = Some sh' →
  sh !! ip server = Some h →
  ∃ h', sh' !! ip server = Some h'
        ∧ isHealthy h' = probe_isHealthy r
        ∧ isPrimary h' = probe_isPrimary r
        ∧ isAssigned h' = isAssigned h
        ∧ lastHealthyTime h'
          = (if probe_isHealthy r && negb (isHealthy h)
             then Some now else lastHealthyTime h)
        ∧ lastUnhealthyTime h'
          = (if negb (probe_isHealthy r) && isHealthy h
             then Some now else lastUnhealthyTime h).
Proof.
  unfold updateServerHealth. intros Hu Hh. rewrite Hh in Hu. simpl in Hu.
  destruct (probe_isHealthy r), (isHealthy h) eqn:E; simpl in Hu;
    simplify_eq; rewrite lookup_insert_eq; eexists; (split; [done|]);
    simpl; rewrite ?E; done.
Qed.

(** [updateServerHealth] throws exactly when the server has no entry. *)
Lemma updateServerHealth_is_Some now sh server r :
  is_Some (updateServerHealth now sh server r) ↔ is_Some (sh !! ip server).
Proof.
  unfold updateServerHealth. destruct (sh !! ip server) as [h|]; simpl.
  - split; [done|]. intros _. repeat case_match; done.
  - split; intros [? ?]; done.
Qed.

Lemma updateServerHealth_wf now servers sh server r sh' :
  updateServerHealth now sh server r = Some sh' →
  wf_state servers sh → wf_state servers sh'.
Proof.
  intros Hu. rewrite !wf_state_iff. intros Hwf k.
  etrans; [|exact (Hwf k)].
  destruct (decide (k = ip server)) as [->|Hne].
  - pose proof (proj1 (updateServerHealth_is_Some now sh server r)
                  ltac:(by rewrite Hu)) as [h Hh].
    destruct (updateServerHealth_entry _ _ _ _ _ _ Hu Hh) as (h' & -> & _).
    rewrite Hh. split; done.
  - by rewrite (updateServerHealth_lookup _ _ _ _ _ _ Hu Hne).
Qed.

(** The update pass over probe results of configured servers never throws;
    it keeps the set of entries and every [isAssigned] flag. *)
Theorem updateAll_total clock i servers sh results :
  wf_state servers sh →
  (∀ s r, (s, r) ∈ results → s ∈ servers) →
  ∃ sh', updateAll clock i sh results = Some sh'
         ∧ wf_state servers sh'
         ∧ ∀ k, isAssigned <$> sh' !! k = isAssigned <$> sh !! k.
Proof.
  revert i sh. induction results as [|[s r] results IH]; intros i sh Hwf Hin.
  - exists sh. done.
  - simpl.
    destruct (proj2 (updateServerHealth_is_Some (clock i) sh s r)) as [sh1 Hu].
    { eapply wf_state_lookup; [done|]. eapply Hin, list_elem_of_here. }
    rewrite Hu. simpl.
    destruct (IH (S i) sh1) as (sh' & Hall & Hwf' & Hflags).
    { by eapply updateServerHealth_wf. }
    { intros ???. eapply Hin. by apply list_elem_of_further. }
    exists sh'. split_and!; [done|done|]. intros k. rewrite Hflags.
    destruct (decide (k = ip s)) as [->|Hne].
    + destruct (wf_state_lookup _ _ s Hwf) as [h Hh];
        [eapply Hin, list_elem_of_here|].
      destruct (updateServerHealth_entry _ _ _ _ _ _ Hu Hh)
        as (h' & -> & _ & _ & Ha & _).
      rewrite Hh. simpl. by rewrite Ha.
    + by rewrite (updateServerHealth_lookup _ _ _ _ _ _ Hu Hne).
Qed.

(** The update is edge-triggered: feeding the same probe result again, at
    any later time, changes nothing. *)
Theorem updateServerHealth_repeat now now' sh server r sh' :
  updateServerHealth now sh server r = Some sh' →
  updateServerHealth now' sh' server r = Some sh'.
Proof.
  intros Hu.
  pose proof (proj1 (updateServerHealth_is_Some now sh server r)
                ltac:(by rewrite Hu)) as [h Hh].
  destruct (updateServerHealth_entry _ _ _ _ _ _ Hu Hh)
    as (h' & Hh' & Hhealthy & Hprimary & _).
  unfold updateServerHealth. rewrite Hh'. simpl. rewrite Hhealthy.
  destruct (probe_isHealthy r); simpl; f_equal; apply map_eq; intros k;
    (destruct (decide (k = ip server)) as [->|];
     [rewrite lookup_insert_eq, Hh'; f_equal; destruct h'; simpl in *;
      unfold set_isPrimary; simpl; congruence
     |by rewrite lookup_insert_ne]).
Qed.

Lemma updateServerHealth_coherent now sh server r sh' T :
  updateServerHealth now sh server r = Some sh' →
  (T ≤ now)%Z →
  (∀ k h, sh !! k = Some h → coherent h ∧ stamped_before T h) →
  ∀ k h, sh' !! k = Some h → coherent h ∧ stamped_before now h.
Proof.
  intros Hu Hle Hinv k h' Hk.
  assert (Hweak : ∀ h, stamped_before T h → stamped_before now h).
  { intros h [H1 H2]. split; intros t Ht; [specialize (H1 t Ht)
                                          |specialize (H2 t Ht)]; lia. }
  destruct (decide (k = ip server)) as [->|Hne].
  2:{ rewrite (updateServerHealth_lookup _ _ _ _ _ _ Hu Hne) in Hk.
      destruct (Hinv _ _ Hk). auto. }
  pose proof (proj1 (updateServerHealth_is_Some now sh server r)
                ltac:(by rewrite Hu)) as [h Hh].
  destruct (updateServerHealth_entry _ _ _ _ _ _ Hu Hh)
    as (h1 & Hh1 & Hhealthy & _ & _ & Hlh & Hlu).
  rewrite Hk in Hh1. injection Hh1 as <-.
  destruct (Hinv _ _ Hh) as [Hco [Hs1 Hs2]].
  unfold coherent, stamped_before in *. rewrite Hhealthy, Hlh, Hlu.
  destruct (probe_isHealthy r), (isHealthy h); simpl in *.
  - destruct Hco as (t & Ht & Hut). split.
    + exists t. done.
    + split; intros x Hx; [specialize (Hs1 x Hx)|specialize (Hs2 x Hx)]; lia.
  - split.
    + exists now. split; [done|]. intros u Hu'. specialize (Hs2 u Hu'). lia.
    + split; [intros t [= <-]; lia|].
      intros u Hu'. specialize (Hs2 u Hu'). lia.
  - destruct Hco as (t & Ht & Hut). split.
    + intros u [= <-]. exists t. split; [done|]. specialize (Hs1 t Ht). lia.
    + split; [|intros u [= <-]; lia].
      intros x Hx. specialize (Hs1 x Hx). lia.
  - split; [done|].
    split; intros x Hx; [specialize (Hs1 x Hx)|specialize (Hs2 x Hx)]; lia.
Qed.

(** Starting from the initial health map, with a clock that does not run
    backwards, every record reached by update passes has coherent
    transition timestamps. *)
Theorem updateAll_coherent clock servers results sh :
  (∀ i j, i ≤ j → (clock i ≤ clock j)%Z) →
  updateAll clock 0 (initServerHealth servers) results = Some sh →
  ∀ k h, sh !! k = Some h → coherent h.
Proof.
  intros Hmono.
  assert (Hgen : ∀ results i sh0 sh1,
    updateAll clock i sh0 results = Some sh1 →
    (∀ k h, sh0 !! k = Some h → coherent h ∧ stamped_before (clock i) h) →
    ∀ k h, sh1 !! k = Some h → coherent h).
  { clear results sh. induction results as [|[s r] results IH];
      intros i sh0 sh1 Hu Hinv k h Hk; simpl in Hu.
    - simplify_eq. by destruct (Hinv _ _ Hk).
    - destruct (updateServerHealth (clock i) sh0 s r) as [sh2|] eqn:E;
        simplify_eq/=.
      eapply (IH (S i) sh2); [done| |done].
      intros k' h' Hk'.
      destruct (updateServerHealth_coherent _ _ _ _ _ (clock i) E
                  ltac:(lia) Hinv k' h' Hk') as [Hco [H1 H2]].
      split; [done|].
      pose proof (Hmono i (S i) ltac:(lia)).
      split; intros x Hx; [specialize (H1 x Hx)|specialize (H2 x Hx)]; lia. }
  intros Hu. eapply Hgen; [done|].
  intros k h Hk. rewrite initServerHealth_lookup in Hk.
  case_bool_decide; simplify_eq. split; [|split]; done.
Qed.

Section GraceRestart.
Variable localeCompare : string → string → Z.

(** A failing probe of a healthy server starts a new grace period, whatever
    the record's earlier history: the plans made at readings before
    [now + 30s] hold no unassign action for the server's address. *)
Theorem failed_probe_starts_grace
    now clock servers sh server h r currentRecords :
  wf_state servers sh → server ∈ servers → sh !! ip server = Some h →
  isHealthy h = true → probe_isHealthy r = false →
  (∀ i, (clock i < now + GRACE_PERIOD_MS)%Z) →
  ∃ sh0 sh1 batch,
    updateServerHealth now sh server r = Some sh0
    ∧ planActions localeCompare clock servers sh0 currentRecords
      = Some (sh1, batch)
    ∧ ∀ s' recordId, unassign s' recordId ∈ batch → ip s' ≠ ip server.
Proof.
  intros Hwf Hs Hh Hup Hfail Hgrace.
  destruct (proj2 (updateServerHealth_is_Some now sh server r)) as [sh0 Hu];
    [by rewrite Hh|].
  destruct (updateServerHealth_entry _ _ _ _ _ _ Hu Hh)
    as (h0 & Hh0 & Hdown & _ & _ & _ & Hlu).
  rewrite Hfail, Hup in Hlu. simpl in Hlu. rewrite Hfail in Hdown.
  pose proof (updateServerHealth_wf _ _ _ _ _ _ Hu Hwf) as Hwf0.
  destruct (planActions_spec localeCompare clock servers sh0 currentRecords
              Hwf0)
    as (sh1 & batch & Hsync & Hplan & _ & Hjust & _ & _).
  rewrite Forall_forall in Hjust.
  pose proof (resync_server_lookup _ _ _ _ _ _ Hsync Hs Hh0) as Hh1.
  exists sh0, sh1, batch. split_and!; [done|done|].
  intros s' rid Hin Heq.
  destruct (Hjust _ Hin) as [(h1 & r1 & Hl & _ & _ & Hwhy) _].
  simpl in Hl. rewrite Heq, Hh1 in Hl. injection Hl as <-.
  destruct Hwhy as [(_ & _ & _ & i & Hi) | (_ & Hup' & _)]; simpl in *.
  - rewrite Hlu in Hi. simpl in Hi. specialize (Hgrace i). lia.
  - congruence.
Qed.

End GraceRestart.

(** ** The rate limiter of the client *)

Module RateLimit.
Import Cloudflare.

Section Spacing.
Context {A : Type}.
Variable requestFn : nat → Z * Outcome A.

(** The rate limiter spaces calls: the last request of a call starts at
    least [minInterval] after the last request made before the call, at
    whatever time the call is made and however its attempts end; the call
    leaves the client's settings as they are. *)
Theorem makeRequest_spacing this now :
  (0 ≤ minInterval this)%Z →
  (lastRequest this + minInterval this
   ≤ lastRequest (makeRequest requestFn this now).1.1.1)%Z
  ∧ minInterval (makeRequest requestFn this now).1.1.1 = minInterval this
  ∧ retryDelays (makeRequest requestFn this now).1.1.1 = retryDelays this.
Proof.
  intros Hmin0. unfold makeRequest.
  assert (Hgen : ∀ fuel m attempt this now trace,
    (0 ≤ minInterval this)%Z → 0 < fuel →
    (lastRequest this + minInterval this
     ≤ lastRequest
         (attemptLoop requestFn fuel m attempt this now trace).1.1.1)%Z
    ∧ minInterval (attemptLoop requestFn fuel m attempt this now trace).1.1.1
      = minInterval this
    ∧ retryDelays (attemptLoop requestFn fuel m attempt this now trace).1.1.1
      = retryDelays this); [|apply Hgen; [done|lia]].
  clear this now Hmin0.
  induction fuel as [|fuel IH]; intros m attempt this now trace Hmin Hpos;
    [lia|].
  cbn [attemptLoop].
  set (now1 := if (now - lastRequest this <? minInterval this)%Z
               then (now + (minInterval this - (now - lastRequest this)))%Z
               else now).
  assert (Hnow1 : (lastRequest this + minInterval this ≤ now1)%Z).
  { unfold now1. destruct (Z.ltb_spec (now - lastRequest this)
                                      (minInterval this)); lia. }
  replace (if (now - lastRequest this <? minInterval this)%Z
           then ((now + (minInterval this - (now - lastRequest this)))%Z,
                 trace ++ [Throttle (minInterval this
                                     - (now - lastRequest this))])
           else (now, trace))
    with (now1, if (now - lastRequest this <? minInterval this)%Z
                then trace ++ [Throttle (minInterval this
                                         - (now - lastRequest this))]
                else trace)
    by (unfold now1; by case_match).
  cbn beta iota.
  destruct (requestFn attempt) as [duration [result|error]]; [done|].
  destruct ((attempt =? m) || negb (isRetryable error)); [done|].
  destruct fuel as [|fuel']; [done|].
  edestruct (IH m (S attempt)
    {| lastRequest := now1; minInterval := minInterval this;
       retryDelays := retryDelays this |}) as (Hl & Hm & Hd);
    [exact Hmin | lia |].
  rewrite Hm, Hd. split_and!; [|done|done].
  etrans; [|exact Hl]. simpl. lia.
Qed.

End Spacing.
End RateLimit.

(** ** Configuration: addresses *)

Lemma split_dot_nonempty s : split_dot s ≠ [].
Proof.
  destruct s as [|c s]; simpl; [done|].
  destruct (Ascii.eqb c "."); [done|]. by destruct (split_dot s).
Qed.

Lemma join_split_dot s : join_dot (split_dot s) = s.
Proof.
  induction s as [|c s IH]; [done|]. simpl.
  destruct (Ascii.eqb_spec c ".") as [->|Hne].
  - pose proof (split_dot_nonempty s).
    destruct (split_dot s) as [|p ps] eqn:E; [done|].
    change (join_dot (EmptyString :: p :: ps))
      with (String "." (join_dot (p :: ps))).
    by rewrite IH.
  - pose proof (split_dot_nonempty s).
    destruct (split_dot s) as [|p ps] eqn:E; [done|].
    destruct ps as [|q ps].
    + simpl in *. by rewrite IH.
    + change (join_dot (String c p :: q :: ps))
        with (String c (join_dot (p :: q :: ps))).
      by rewrite IH.
Qed.

Lemma split_dot_noDot s : noDot s = true → split_dot s = [s].
Proof.
  induction s as [|c s IH]; [done|]. simpl.
  intros [Hc Hs]%andb_true_iff. apply negb_true_iff in Hc. rewrite Hc.
  by rewrite IH.
Qed.

Lemma split_dot_append p s :
  noDot p = true →
  split_dot (String.append p (String "." s)) = p :: split_dot s.
Proof.
  induction p as [|c p IH]; [done|]. simpl.
  intros [Hc Hs]%andb_true_iff. apply negb_true_iff in Hc. rewrite Hc.
  by rewrite IH.
Qed.

Lemma isDigit_noDot c : isDigit c = true → Ascii.eqb c "." = false.
Proof.
  intros H. destruct (Ascii.eqb_spec c "."); [subst; done|done].
Qed.

Lemma allDigits_noDot s : allDigits s = true → noDot s = true.
Proof.
  induction s as [|c s IH]; [done|]. simpl.
  intros [Hc Hs]%andb_true_iff. by rewrite (isDigit_noDot c Hc), IH.
Qed.

Lemma isDecimalLiteral_allDigits p :
  isDecimalLiteral p = true → allDigits p = true.
Proof.
  destruct p as [|c rest]; [done|]. simpl.
  destruct (Ascii.eqb_spec c "0") as [->|_].
  - intros ->%String.eqb_eq. done.
  - intros [[H1 H2]%andb_true_iff H3]%andb_true_iff. rewrite H3.
    unfold isDigit. rewrite H2. apply N.leb_le in H1.
    replace (48 <=? N_of_ascii c)%N with true; [done|].
    symmetry. apply N.leb_le. lia.
Qed.

Lemma parseDigits_lower s :
  ∀ acc, (acc * 10 ^ N.of_nat (String.length s) ≤ parseDigits acc s)%N.
Proof.
  induction s as [|c s IH]; intros acc; simpl String.length.
  - simpl. lia.
  - cbn [parseDigits]. etrans; [|apply IH].
    rewrite Nat2N.inj_succ, N.pow_succ_r'. nia.
Qed.

Lemma isDigit_In c : isDigit c = true → In c digitChars.
Proof.
  destruct c as [[] [] [] [] [] [] [] []]; vm_compute; intros H;
    try discriminate H; tauto.
Qed.

Lemma allDigits_shortTails s :
  allDigits s = true → String.length s ≤ 2 → In s shortTails.
Proof.
  destruct s as [|c1 [|c2 [|c3 s]]]; intros H Hlen; simpl in H, Hlen;
    unfold shortTails.
  - apply in_eq.
  - apply in_cons, in_or_app. left.
    apply (in_map (λ c, String c EmptyString)).
    apply isDigit_In. by destruct (isDigit c1).
  - apply in_cons, in_or_app. right.
    apply andb_true_iff in H as [H1 H2]. apply andb_true_iff in H2 as [H2 _].
    apply in_flat_map. exists c1. split; [by apply isDigit_In|].
    apply (in_map (λ c', String c1 (String c' EmptyString))).
    by apply isDigit_In.
  - lia.
Qed.

Lemma validPart_candidates :
  forallb (λ p, implb (validPart p) (String.eqb (decimal (parseInt10 p)) p))
    octetCandidates = true.
Proof. vm_compute. reflexivity. Qed.

Lemma validPart_decimal p :
  validPart p = true → (parseInt10 p ≤ 255)%N ∧ decimal (parseInt10 p) = p.
Proof.
  intros Hv. assert (Hv' := Hv). unfold validPart in Hv.
  destruct (isDecimalLiteral p) eqn:Hlit; [|done]. simpl in Hv.
  apply andb_true_iff in Hv as [_ Hv]. apply N.leb_le in Hv. split; [done|].
  assert (In p octetCandidates) as Hin.
  { pose proof (isDecimalLiteral_allDigits p Hlit) as Hall.
    destruct p as [|c rest]; [done|]. simpl in Hall.
    apply andb_true_iff in Hall as [Hc Hrest].
    apply in_flat_map. exists c. split; [by apply isDigit_In|].
    apply (in_map (String c)). apply allDigits_shortTails; [done|].
    destruct (le_lt_dec (String.length rest) 2) as [|Hlong]; [done|exfalso].
    simpl in Hlit. destruct (Ascii.eqb_spec c "0") as [->|Hnz].
    { apply String.eqb_eq in Hlit. subst. simpl in Hlong. lia. }
    apply andb_true_iff in Hlit as [[H1 _]%andb_true_iff _].
    apply N.leb_le in H1.
    unfold parseInt10 in Hv. cbn [parseDigits] in Hv.
    pose proof (parseDigits_lower rest (0 * 10 + (N_of_ascii c - 48))%N)
      as Hlow.
    assert (10 ^ 3 ≤ 10 ^ N.of_nat (String.length rest))%N
      by (apply N.pow_le_mono_r; lia).
    assert (1 ≤ 0 * 10 + (N_of_ascii c - 48))%N by lia.
    change (10 ^ 3)%N with 1000%N in *. nia. }
  pose proof validPart_candidates as Hall.
  rewrite forallb_forall in Hall. specialize (Hall p Hin).
  rewrite Hv' in Hall. simpl in Hall. by apply String.eqb_eq.
Qed.

Lemma decimal_validPart n :
  (n ≤ 255)%N → validPart (decimal n) = true ∧ parseInt10 (decimal n) = n.
Proof.
  intros Hn.
  assert (forallb (λ k, validPart (decimal (N.of_nat k))
                        && (parseInt10 (decimal (N.of_nat k)) =? N.of_nat k)%N)
            (seq 0 256) = true) as Hall by (vm_compute; reflexivity).
  rewrite forallb_forall in Hall.
  specialize (Hall (N.to_nat n)). rewrite N2Nat.id in Hall.
  destruct (andb_prop _ _ (Hall ltac:(apply in_seq; lia))) as [H1 H2].
  split; [done|]. by apply N.eqb_eq.
Qed.

Lemma validPart_noDot p : validPart p = true → noDot p = true.
Proof.
  unfold validPart. destruct (isDecimalLiteral p) eqn:H; [|done]. intros _.
  by apply allDigits_noDot, isDecimalLiteral_allDigits.
Qed.

(** [isValidIP] accepts exactly the dotted quads of four decimal numerals
    between 0 and 255, written without sign, spaces or leading zeros. *)
Theorem isValidIP_spec s :
  isValidIP s = true ↔
  ∃ a b c d, (a ≤ 255)%N ∧ (b ≤ 255)%N ∧ (c ≤ 255)%N ∧ (d ≤ 255)%N
             ∧ s = dottedQuad a b c d.
Proof.
  unfold isValidIP. split.
  - intros Hv. pose proof (join_split_dot s) as Hj.
    destruct (split_dot s) as [|p1 [|p2 [|p3 [|p4 [|p5 ps]]]]]; try done.
    simpl in Hv.
    apply andb_true_iff in Hv as [H1 Hv]. apply andb_true_iff in Hv as [H2 Hv].
    apply andb_true_iff in Hv as [H3 Hv]. apply andb_true_iff in Hv as [H4 _].
    apply validPart_decimal in H1 as [? E1].
    apply validPart_decimal in H2 as [? E2].
    apply validPart_decimal in H3 as [? E3].
    apply validPart_decimal in H4 as [? E4].
    exists (parseInt10 p1), (parseInt10 p2), (parseInt10 p3), (parseInt10 p4).
    split_and!; [done..|]. unfold dottedQuad. rewrite E1, E2, E3, E4.
    by rewrite <- Hj.
  - intros (a & b & c & d & Ha & Hb & Hc & Hd & ->).
    destruct (decimal_validPart a Ha) as [Va _].
    destruct (decimal_validPart b Hb) as [Vb _].
    destruct (decimal_validPart c Hc) as [Vc _].
    destruct (decimal_validPart d Hd) as [Vd _].
    unfold dottedQuad.
    rewrite !split_dot_append, split_dot_noDot by by apply validPart_noDot.
    simpl. by rewrite Va, Vb, Vc, Vd.
Qed.

(** ** Configuration: the server list *)

Lemma isValidIP_nonempty ip0 : isValidIP ip0 = true → ip0 ≠ EmptyString.
Proof. by intros H ->. Qed.

(** The checks on the parsed server list pass exactly for a non-empty array
    of objects that each carry a truthy [name] and, as [ip], a string that
    [isValidIP] accepts; the list is returned as it is.  Anything else
    (no array, an empty array, an entry that is no object, a missing or
    empty [name], an [ip] that is missing, not a string or not valid) makes
    the configuration fail. *)
Theorem validateServers_spec serversData servers :
  validateServers serversData = Some servers ↔
  serversData = JsArray servers ∧ servers ≠ []
  ∧ ∀ s, s ∈ servers →
      ∃ fields ip0,
        s = JsObject fields
        ∧ truthy (get_field "name" fields) = true
        ∧ get_field "ip" fields = JsString ip0
        ∧ isValidIP ip0 = true.
Proof.
  unfold validateServers. split.
  - destruct serversData as [| | | | |items|]; try done.
    destruct items as [|s0 items]; [done|]. cbn [length Nat.eqb].
    destruct (forallb validServerEntry (s0 :: items)) eqn:Hall; [|done].
    intros [= <-]. split_and!; [done|done|].
    intros s Hs%list_elem_of_In.
    rewrite forallb_forall in Hall. specialize (Hall s Hs).
    unfold validServerEntry in Hall. destruct s as [| | | | | |fields]; try done.
    destruct (truthy (get_field "name" fields)) eqn:Hname; [|done].
    destruct (truthy (get_field "ip" fields)) eqn:Hip; [|done]. simpl in Hall.
    destruct (get_field "ip" fields) as [| | | |ip0| |] eqn:E; try done.
    exists fields, ip0. done.
  - intros (-> & Hne & Hall).
    destruct servers as [|s0 servers]; [done|]. cbn [length Nat.eqb].
    assert (forallb validServerEntry (s0 :: servers) = true) as ->; [|done].
    apply forallb_forall. intros s Hs%list_elem_of_In.
    destruct (Hall s Hs) as (fields & ip0 & -> & Hname & Hip & Hvalid).
    unfold validServerEntry. rewrite Hname, Hip. simpl.
    destruct ip0 as [|c ip0]; [done|]. exact Hvalid.
Qed.

(** ** The [isAssigned] flags after a run *)






Section Flags.
Variable localeCompare : string → string → Z.
Variable newId : list DNSRecord → string.
Hypothesis newId_fresh : ∀ store, newId store ∉ record_id <$> store.


End Flags.

(** ** Instances of the further properties *)

Lemma same_but_assigned_fmap (m1 m2 : gmap string HealthRecord) :
  set_isAssigned false <$> m1 = set_isAssigned false <$> m2 →
  same_but_assigned m1 m2.
Proof. intros H k. by rewrite <- !lookup_fmap, H. Qed.

Lemma scenario1_stale_same : same_but_assigned scenario1_health scenario1_stale.
Proof. apply same_but_assigned_fmap. vm_compute. reflexivity. Qed.

Lemma plan_ignores_stale_flags_witness :
  planActions codepointCompare (λ _, t0 + 45000)%Z [charlie; alpha; bravo]
    scenario1_stale [recordA; recordC]
  = planActions codepointCompare (λ _, t0 + 45000)%Z [charlie; alpha; bravo]
      scenario1_health [recordA; recordC].
Proof.
  exact (plan_ignores_stale_flags codepointCompare (λ _, t0 + 45000)%Z
           [charlie; alpha; bravo] scenario1_health scenario1_stale
           [recordA; recordC] scenario1_wf scenario1_stale_same).
Defined.

Lemma outage_alpha_in_grace (i : nat) :
  (t0 + 45000
   < toNumber (lastUnhealthyTime
                 (healthRecord false false (Some (t0 + 40000)%Z)))
     + GRACE_PERIOD_MS)%Z.
Proof. unfold GRACE_PERIOD_MS, t0. simpl. lia. Qed.

Lemma plan_respects_grace_witness :
  ∃ sh1 batch,
    planActions codepointCompare (λ _, t0 + 45000)%Z [alpha; charlie]
      outage_health [recordA; recordC] = Some (sh1, batch)
    ∧ ∀ s' recordId, unassign s' recordId ∈ batch → ip s' ≠ ip alpha.
Proof.
  exact (plan_respects_grace codepointCompare (λ _, t0 + 45000)%Z
           [alpha; charlie] outage_health [recordA; recordC] alpha
           (healthRecord false false (Some (t0 + 40000)%Z))
           outage_wf (list_elem_of_here _ _) eq_refl eq_refl
           outage_alpha_in_grace).
Defined.

Lemma plan_no_conflict_witness :
  ∃ sh1 batch,
    planActions codepointCompare (λ _, t0 + 45000)%Z [charlie; alpha; bravo]
      scenario1_health [recordA; recordC] = Some (sh1, batch)
    ∧ ∀ s1 s2 recordId,
        assign s1 ∈ batch → unassign s2 recordId ∈ batch → ip s1 ≠ ip s2.
Proof.
  exact (plan_no_conflict codepointCompare (λ _, t0 + 45000)%Z
           [charlie; alpha; bravo] scenario1_health [recordA; recordC]
           scenario1_wf).
Defined.

Lemma steady_wf : wf_state [alpha; bravo] steady_health.
Proof. unfold wf_state. vm_compute. reflexivity. Qed.

Lemma steady_converged :
  converged [alpha; bravo] steady_health [recordA; recordB].
Proof.
  intros s h [->|[->|[]%elem_of_nil]%elem_of_cons]%elem_of_cons Hl;
    vm_compute in Hl; injection Hl as <-;
    (split; [intros _; split; [reflexivity | left; reflexivity]|]);
    intros _; compute_done.
Qed.

Lemma converged_plan_empty_witness :
  ∃ sh1,
    planActions codepointCompare (λ _, t0 + 45000)%Z [alpha; bravo]
      steady_health [recordA; recordB] = Some (sh1, []).
Proof.
  exact (converged_plan_empty codepointCompare (λ _, t0 + 45000)%Z
           [alpha; bravo] steady_health [recordA; recordB]
           steady_wf steady_converged).
Defined.

(** Scenario 1 with every call succeeding: bravo's record is created and
    charlie's is removed. *)
Lemma scenario1_run_store :
  ∃ sh',
    manageDNSRecords codepointCompare longId (λ _, t0 + 45000)%Z (λ _, true)
      [charlie; alpha; bravo] scenario1_health [recordA; recordC] true
    = Some (sh',
            [recordA; {| record_id := longId [recordA; recordC];
                         content := "10.0.0.2" |}],
            [assign bravo; unassign charlie (record_id recordC)]).
Proof. eexists. vm_compute. reflexivity. Qed.

Lemma scenario1_recordC_gone :
  recordC ∉ [recordA; {| record_id := longId [recordA; recordC];
                         content := "10.0.0.2" |}].
Proof.
  intros [H|[H|[]%elem_of_nil]%elem_of_cons]%elem_of_cons;
    apply (f_equal content) in H; discriminate H.
Qed.

Lemma record_removed_for_cause_witness :
  ∃ sh' store' batch,
    manageDNSRecords codepointCompare longId (λ _, t0 + 45000)%Z (λ _, true)
      [charlie; alpha; bravo] scenario1_health [recordA; recordC] true
    = Some (sh', store', batch)
    ∧ (recordC ∉ store')
    ∧ (∃ s h,
          s ∈ [charlie; alpha; bravo] ∧ scenario1_health !! ip s = Some h
          ∧ content recordC = ip s
          ∧ (isHealthy h = false
             ∧ (2 ≤ size (currentIPs [recordA; recordC]))%nat
             ∧ (∃ i : nat, graceOver (t0 + 45000) h)
             ∨ isHealthy h = true ∧ isPrimary h = true
               ∧ ∃ s' h', s' ∈ [charlie; alpha; bravo]
                          ∧ scenario1_health !! ip s' = Some h'
                          ∧ isHealthy h' = true ∧ isPrimary h' = false)).
Proof.
  destruct (record_removed_for_cause codepointCompare longId
              (λ _, t0 + 45000)%Z (λ _, true) [charlie; alpha; bravo]
              scenario1_health [recordA; recordC] true recordC
              scenario1_wf scenario1_store_NoDup
              (list_elem_of_further _ _ _ (list_elem_of_here _ _)))
    as (sh' & store' & batch & Hrun & Hcause).
  assert (Hgone : recordC ∉ store').
  { destruct scenario1_run_store as [sh0 Hrun0].
    rewrite Hrun0 in Hrun. injection Hrun as _ <- _.
    exact scenario1_recordC_gone. }
  exists sh', store', batch.
  split; [exact Hrun|]. split; [exact Hgone|]. exact (Hcause Hgone).
Defined.

Lemma healthy_servers_published_witness :
  ∃ sh' store' batch,
    manageDNSRecords codepointCompare longId (λ _, t0 + 45000)%Z (λ _, true)
      [charlie; alpha; bravo] scenario1_health [recordA; recordC] true
    = Some (sh', store', batch)
    ∧ ip bravo ∈ currentIPs store'.
Proof.
  destruct (healthy_servers_published codepointCompare longId longId_fresh
              (λ _, t0 + 45000)%Z (λ _, true) [charlie; alpha; bravo]
              scenario1_health [recordA; recordC] bravo
              (healthRecord true false None)
              scenario1_wf scenario1_store_NoDup
              (list_elem_of_further _ _ _
                 (list_elem_of_further _ _ _ (list_elem_of_here _ _)))
              eq_refl eq_refl (or_introl eq_refl))
    as (sh' & store' & batch & Hrun & Hpub).
  exists sh', store', batch. split; [exact Hrun|].
  apply Hpub. intros j _. reflexivity.
Defined.

Lemma firstCycle_configured s r :
  (s, r) ∈ firstCycle_results → s ∈ [alpha; charlie].
Proof.
  intros [[= -> ->]|[[= -> ->]|[]%elem_of_nil]%elem_of_cons]%elem_of_cons.
  - apply list_elem_of_here.
  - apply list_elem_of_further, list_elem_of_here.
Qed.

Lemma updateAll_total_witness :
  ∃ sh', updateAll tickingClock 0 (initServerHealth [alpha; charlie])
           firstCycle_results = Some sh'
         ∧ wf_state [alpha; charlie] sh'
         ∧ ∀ k, isAssigned <$> sh' !! k
                = isAssigned <$> initServerHealth [alpha; charlie] !! k.
Proof.
  exact (updateAll_total tickingClock 0 [alpha; charlie]
           (initServerHealth [alpha; charlie]) firstCycle_results
           (initServerHealth_wf _) firstCycle_configured).
Defined.

Lemma firstProbe_state :
  ∃ sh',
    updateServerHealth t0 (initServerHealth [alpha; charlie]) alpha
      {| probe_isHealthy := true; probe_isPrimary := false |} = Some sh'.
Proof. eexists. vm_compute. reflexivity. Qed.

Lemma updateServerHealth_repeat_witness :
  ∃ sh',
    updateServerHealth t0 (initServerHealth [alpha; charlie]) alpha
      {| probe_isHealthy := true; probe_isPrimary := false |} = Some sh'
    ∧ updateServerHealth (t0 + 5000) sh' alpha
        {| probe_isHealthy := true; probe_isPrimary := false |} = Some sh'.
Proof.
  destruct firstProbe_state as [sh' Hu]. exists sh'. split; [exact Hu|].
  exact (updateServerHealth_repeat t0 (t0 + 5000)%Z _ alpha _ sh' Hu).
Defined.

Lemma tickingClock_mono i j : i ≤ j → (tickingClock i ≤ tickingClock j)%Z.
Proof. unfold tickingClock. lia. Qed.

Lemma firstCycle_ticking_state :
  ∃ sh,
    updateAll tickingClock 0 (initServerHealth [alpha; charlie])
      firstCycle_results = Some sh.
Proof. eexists. vm_compute. reflexivity. Qed.

Lemma updateAll_coherent_witness :
  ∃ sh,
    updateAll tickingClock 0 (initServerHealth [alpha; charlie])
      firstCycle_results = Some sh
    ∧ ∀ k h, sh !! k = Some h → coherent h.
Proof.
  destruct firstCycle_ticking_state as [sh Hu]. exists sh.
  split; [exact Hu|].
  exact (updateAll_coherent tickingClock [alpha; charlie]
           firstCycle_results sh tickingClock_mono Hu).
Defined.

Lemma failed_probe_in_grace (i : nat) :
  (t0 + 60000 < t0 + 45000 + GRACE_PERIOD_MS)%Z.
Proof. unfold GRACE_PERIOD_MS, t0. lia. Qed.

Lemma failed_probe_starts_grace_witness :
  ∃ sh0 sh1 batch,
    updateServerHealth (t0 + 45000) scenario1_health alpha
      {| probe_isHealthy := false; probe_isPrimary := false |} = Some sh0
    ∧ planActions codepointCompare (λ _, t0 + 60000)%Z
        [charlie; alpha; bravo] sh0 [recordA; recordC] = Some (sh1, batch)
    ∧ ∀ s' recordId, unassign s' recordId ∈ batch → ip s' ≠ ip alpha.
Proof.
  exact (failed_probe_starts_grace codepointCompare (t0 + 45000)%Z
           (λ _, t0 + 60000)%Z [charlie; alpha; bravo] scenario1_health
           alpha (healthRecord true false None)
           {| probe_isHealthy := false; probe_isPrimary := false |}
           [recordA; recordC] scenario1_wf
           (list_elem_of_further _ _ _ (list_elem_of_here _ _))
           eq_refl eq_refl eq_refl failed_probe_in_grace).
Defined.

Lemma makeRequest_spacing_witness :
  (Cloudflare.lastRequest Cloudflare.newCloudflareAPI
   + Cloudflare.minInterval Cloudflare.newCloudflareAPI
   ≤ Cloudflare.lastRequest
       (Cloudflare.makeRequest flakyRequest Cloudflare.newCloudflareAPI
          t0).1.1.1)%Z.
Proof.
  exact (proj1 (RateLimit.makeRequest_spacing flakyRequest
                  Cloudflare.newCloudflareAPI t0 ltac:(simpl; lia))).
Defined.

Lemma isValidIP_spec_witness : isValidIP "10.0.0.1" = true.
Proof.
  apply isValidIP_spec. exists 10%N, 0%N, 0%N, 1%N.
  split_and!; [lia..|reflexivity].
Defined.

Lemma validateServers_spec_witness :
  validateServers (JsArray oneServerConfig) = Some oneServerConfig.
Proof.
  apply validateServers_spec. split_and!; [reflexivity|discriminate|].
  intros s [->|[]%elem_of_nil]%elem_of_cons.
  exists [("name", JsString "alpha"); ("ip", JsString "10.0.0.1")], "10.0.0.1".
  split_and!; reflexivity.
Defined.


(** ** A whole cycle *)

Lemma updateAll_wf clock i servers sh results :
  wf_state servers sh →
  (∀ s r, (s, r) ∈ results → s ∈ servers) →
  ∃ sh', updateAll clock i sh results = Some sh' ∧ wf_state servers sh'.
Proof.
  revert i sh. induction results as [|[s r] results IH]; intros i sh Hwf Hin.
  - exists sh. done.
  - simpl.
    destruct (proj2 (updateServerHealth_is_Some (clock i) sh s r)) as [sh1 Hu].
    { eapply wf_state_lookup; [done|]. eapply Hin, list_elem_of_here. }
    rewrite Hu. simpl. apply IH; [by eapply updateServerHealth_wf|].
    intros ???. eapply Hin. by apply list_elem_of_further.
Qed.

(** When every probe result for an address says healthy and not primary,
    and there is one, the update pass leaves the entry so. *)
Lemma updateAll_verdict clock k results :
  (∀ s r, (s, r) ∈ results → ip s = k →
          probe_isHealthy r = true ∧ probe_isPrimary r = false) →
  ∀ i sh sh',
    updateAll clock i sh results = Some sh' →
    (∃ h, sh !! k = Some h ∧ isHealthy h = true ∧ isPrimary h = false)
    ∨ (∃ s r, (s, r) ∈ results ∧ ip s = k) →
    ∃ h, sh' !! k = Some h ∧ isHealthy h = true ∧ isPrimary h = false.
Proof.
  induction results as [|[s r] results IH]; intros Hgood i sh sh' Hu Hpre.
  - simpl in Hu. simplify_eq.
    destruct Hpre as [?|(s & r & []%elem_of_nil & _)]. done.
  - simpl in Hu.
    destruct (updateServerHealth (clock i) sh s r) as [sh1|] eqn:E;
      simplify_eq/=.
    eapply (IH ltac:(intros ????; eapply Hgood;
                       [by apply list_elem_of_further|done]) (S i) sh1);
      [done|].
    destruct (decide (ip s = k)) as [<-|Hne].
    + left.
      pose proof (proj1 (updateServerHealth_is_Some (clock i) sh s r)
                    ltac:(by rewrite E)) as [h Hh].
      destruct (updateServerHealth_entry _ _ _ _ _ _ E Hh)
        as (h' & Hh' & Hhealthy & Hprimary & _).
      destruct (Hgood s r (list_elem_of_here _ _) eq_refl) as [Hr1 Hr2].
      exists h'. split_and!; [done|congruence|congruence].
    + rewrite (updateServerHealth_lookup _ _ _ _ _ k E) by done.
      destruct Hpre as [?|(s0 & r0 & [[= -> ->]|?]%elem_of_cons & ?)];
        [by left|done|right; eauto].
Qed.

Section CycleFacts.
Variable localeCompare : string → string → Z.
Variable newId : list DNSRecord → string.
Hypothesis newId_fresh : ∀ store, newId store ∉ record_id <$> store.

(** A cycle on a well-formed health map does not throw, whatever the probes
    answer, whether or not the records can be fetched and whichever calls
    fail.  If every probe of a server's address answers 200 without the
    primary mark, every call of the batch succeeds, and the records were
    fetched or the address was already published, the server's address is
    published when the cycle ends, whatever the health map said before. *)
Theorem cycle_publishes_healthy
    replies updateClock planClock oks servers sh store fetched :
  wf_state servers sh →
  ∃ sh' store' batch,
    doCheckups localeCompare newId replies updateClock planClock oks
      servers sh store fetched
    = Some (sh', store', batch)
    ∧ ∀ server,
        server ∈ servers →
        NoDup (record_id <$> store) →
        (∀ i s, js_sort (compareServers localeCompare) servers !! i = Some s →
                ip s = ip server →
                ∃ res, replies i = Resolved res ∧ status res = 200%Z
                       ∧ strict_eq_true
                           (optional_get (data res) "isMongoPrimary")
                         = false) →
        (∀ j, j < length batch → oks j = true) →
        fetched = true ∨ ip server ∈ currentIPs store →
        ip server ∈ currentIPs store'.
Proof using newId_fresh.
  intros Hwf. unfold doCheckups.
  set (sorted := js_sort (compareServers localeCompare) servers) in *.
  assert (Hres : ∀ s r, (s, r) ∈ probeResults replies sorted →
                        ∃ i, sorted !! i = Some s
                             ∧ r = checkHealth (replies i)).
  { intros s r (i & s' & [= -> ->] & Hi)%elem_of_lookup_imap. eauto. }
  destruct (updateAll_wf updateClock 0 servers sh (probeResults replies sorted)
              Hwf) as (sh0 & Hu & Hwf0).
  { intros s r (i & Hi & _)%Hres.
    apply (js_sort_elem_of (compareServers localeCompare)).
    by eapply list_elem_of_lookup_2. }
  rewrite Hu. simpl.
  destruct fetched.
  2:{ unfold manageDNSRecords. eexists _, _, _. split; [reflexivity|].
      intros server _ _ _ _ [?|Hpub]; [done|exact Hpub]. }
  destruct (planActions_spec localeCompare planClock servers sh0 store Hwf0)
    as (sh1 & batch & Hsync & Hplan & _).
  unfold manageDNSRecords. rewrite Hplan. simpl.
  eexists _, _, _. split; [done|]. intros server Hs Hnd Hup Hok _.
  destruct (updateAll_verdict updateClock (ip server)
              (probeResults replies sorted)) with (i := 0) (sh := sh) (sh' := sh0)
    as (h0 & Hh0 & Hhealthy & Hprimary); [|done| |].
  { intros s r (i & Hi & ->)%Hres Heq.
    destruct (Hup i s Hi Heq) as (res & -> & Hstatus & Hrole).
    simpl. rewrite Hstatus, Hrole. done. }
  { right. assert (server ∈ sorted) as (i & Hi)%list_elem_of_lookup_1
      by by apply js_sort_elem_of.
    exists server, (checkHealth (replies i)). split; [|done].
    apply elem_of_lookup_imap. eauto. }
  eapply (keeper_published localeCompare newId newId_fresh
            planClock oks servers sh0 store sh1 batch server);
    [done|done|done|done|done
    |by eapply resync_server_lookup|done|by left].
Qed.

End CycleFacts.

Lemma cycle_publishes_healthy_witness :
  ∃ sh' store' batch,
    doCheckups codepointCompare longId allUp tickingClock tickingClock
      (λ _, true) [alpha; bravo] (initServerHealth [alpha; bravo]) [] true
    = Some (sh', store', batch)
    ∧ ip bravo ∈ currentIPs store'.
Proof.
  destruct (cycle_publishes_healthy codepointCompare longId longId_fresh
              allUp tickingClock tickingClock (λ _, true) [alpha; bravo]
              (initServerHealth [alpha; bravo]) [] true
              (initServerHealth_wf _))
    as (sh' & store' & batch & Hrun & Hpub).
  exists sh', store', batch. split; [exact Hrun|].
  apply Hpub.
  - apply list_elem_of_further, list_elem_of_here.
  - apply NoDup_nil_2.
  - intros i s _ _. eexists. split_and!; reflexivity.
  - intros j _. reflexivity.
  - left. reflexivity.
Defined.
